(** * add-connect-calls.py: the bracket-matching rewriter

    A shallow embedding of [src/add-connect-calls.py] and the properties of
    its line rewriter.

    Conventions of the model.
    - A Python [str] is a [string]; a character is an [ascii], read as the
      code point of that number (the model covers text whose code points are
      below 256).
    - [lines], [output_lines] are [list string]; [output_lines.append(x)] is
      [output_lines ++ [x]]; [lines[i]] guarded by [i < len(lines)] is the
      lookup [lines !! i].
    - [bracket_count] is a Python integer, hence a [Z].
    - The two [while] loops are fixpoints on a fuel argument; they are run
      with as many steps as the list has lines plus one, which is shown to be
      enough ([inner_while_fuel], [outer_while_fuel]).
    - A file system is a finite map from the paths that exist to the bytes
      they hold, with the errors [open] ends with for some of them. The text
      layer of [open] in text mode (the codec of the locale, the universal
      newlines on reading, the line separator on writing) is a component of
      the world a run takes place in. *)

From Stdlib Require Import String Ascii ZArith Lia.
From stdpp Require Import base option list numbers strings gmap.

Local Open Scope string_scope.
Local Open Scope Z_scope.
Local Open Scope list_scope.

(** ** Characters *)

Definition TAB : ascii := ascii_of_nat 9.
Definition NL : ascii := ascii_of_nat 10.
Definition LBRACE : ascii := "{"%char.
Definition RBRACE : ascii := "}"%char.
Definition QUOTE : ascii := ascii_of_nat 34.
Definition CR : ascii := ascii_of_nat 13.

Definition between (lo hi : nat) (c : ascii) : bool :=
  let n := nat_of_ascii c in (lo <=? n)%nat && (n <=? hi)%nat.

(** [\s] of a [str] pattern: Unicode white space, here below code point 256. *)
Definition is_space (c : ascii) : bool :=
  between 9 13 c || between 28 32 c || between 133 133 c || between 160 160 c.

(** [\w] of a [str] pattern: Unicode alphanumerics and the underscore, here
    below code point 256. *)
Definition is_word (c : ascii) : bool :=
  between 48 57 c || between 65 90 c || between 95 95 c || between 97 122 c
  || between 170 170 c || between 178 179 c || between 181 181 c
  || between 185 186 c || between 188 190 c || between 192 214 c
  || between 216 246 c || between 248 255 c.

(** ** The pattern of line 18, as a backtracking matcher *)

Module Re.

(** The alternatives a pattern has on an input, in the order in which the
    backtracking engine tries them; each one is the text it captured and
    the input it left. *)
Definition matcher (A : Type) : Type := string → list (A * string).

Definition ret {A} (a : A) : matcher A := λ inp, [(a, inp)].

Definition bind {A B} (m : matcher A) (k : A → matcher B) : matcher B :=
  λ inp, flat_map (λ r, k (fst r) (snd r)) (m inp).

Fixpoint strip_prefix (p s : string) : option string :=
  match p, s with
  | EmptyString, _ => Some s
  | String a p', String b s' =>
      if Ascii.eqb a b then strip_prefix p' s' else None
  | String _ _, EmptyString => None
  end.

(** A literal. *)
Definition lit (p : string) : matcher unit :=
  λ inp, match strip_prefix p inp with
         | Some rest => [(tt, rest)]
         | None => []
         end.

(** [c*] for a character class, greedy: the longest run first. *)
Fixpoint star (cls : ascii → bool) (inp : string) : list (string * string) :=
  match inp with
  | String c rest =>
      if cls c
      then map (λ r, (String c (fst r), snd r)) (star cls rest)
             ++ [(EmptyString, inp)]
      else [(EmptyString, inp)]
  | EmptyString => [(EmptyString, inp)]
  end.

(** [c+] for a character class, greedy. *)
Definition plus (cls : ascii → bool) : matcher string :=
  λ inp, match inp with
         | String c rest =>
             if cls c
             then map (λ r, (String c (fst r), snd r)) (star cls rest)
             else []
         | EmptyString => []
         end.

(** [(r)?], greedy: [r] first, then nothing. *)
Definition opt (m : matcher unit) : matcher unit :=
  λ inp, m inp ++ [(tt, inp)].

(** [r1|r2]: [r1] first. *)
Definition alt (m1 m2 : matcher unit) : matcher unit :=
  λ inp, m1 inp ++ m2 inp.

(** [re.match]: the first alternative that succeeds, anchored at the start
    of the line. *)
Definition re_match {A} (m : matcher A) (line : string) : option A :=
  match m line with
  | r :: _ => Some (fst r)
  | [] => None
  end.

End Re.

Notation "m >>= k" := (Re.bind m k)
  (at level 99, k at level 200, only parsing).
Notation "m ;;; k" := (Re.bind m (λ _, k))
  (at level 99, k at level 200, only parsing).

(** [\s*(\w+)\s*:=\s*(spatial\.)?New(BasicRoom|BasicRoomOrchestrator)\(],
    yielding group 1. *)
Definition declaration : Re.matcher string :=
  Re.star is_space ;;;
  Re.plus is_word >>= λ var_name,
  Re.star is_space ;;;
  Re.lit ":=" ;;;
  Re.star is_space ;;;
  Re.opt (Re.lit "spatial.") ;;;
  Re.lit "New" ;;;
  Re.alt (Re.lit "BasicRoom") (Re.lit "BasicRoomOrchestrator") ;;;
  Re.lit "(" ;;;
  Re.ret var_name.

(** [re.match(...)] of line 18 followed by [match.group(1)]. *)
Definition match_decl (line : string) : option string :=
  Re.re_match declaration line.

(** ** The pattern, said on the text of a line *)

(** Every character of [s] is in the class. *)
Fixpoint every (cls : ascii → bool) (s : string) : bool :=
  match s with
  | EmptyString => true
  | String c s => cls c && every cls s
  end.

(** The line is white space, the identifier [v], white space, [:=], white
    space, an optional [spatial.], [New], one of the two names, an opening
    parenthesis, and any text. *)
Definition declaration_shape (line v : string) : Prop :=
  ∃ ws1 ws2 ws3 qual name tail,
    line = ws1 +:+ v +:+ ws2 +:+ ":=" +:+ ws3 +:+ qual +:+ "New" +:+ name
               +:+ "(" +:+ tail
    ∧ every is_space ws1 = true
    ∧ every is_word v = true ∧ v ≠ EmptyString
    ∧ every is_space ws2 = true
    ∧ every is_space ws3 = true
    ∧ (qual = EmptyString ∨ qual = "spatial.")
    ∧ (name = "BasicRoom" ∨ name = "BasicRoomOrchestrator").

(** The text is empty or begins outside the class. *)
Definition stops_class (cls : ascii → bool) (x : string) : Prop :=
  match x with
  | EmptyString => True
  | String c _ => cls c = false
  end.

(** ** The rewriter, lines 10-50 *)

(** The f-string of line 38. *)
Definition connect_line (var_name : string) : string :=
  String TAB (var_name +:+ ".ConnectToEventBus(eventBus)" +:+ String NL EmptyString).

(** The variables the brace scan updates. *)
Record scan_state : Type := ScanState {
  bracket_count : Z;
  found_opening : bool;
  output_lines : list string
}.

(** [found_opening and bracket_count == 0], lines 36 and 41. *)
Definition closed (st : scan_state) : bool :=
  found_opening st && (bracket_count st =? 0).

(** Lines 29-39, [for char in current_line]. The boolean tells whether the
    loop was left through [break]. *)
Fixpoint for_chars (var_name current_line : string) (st : scan_state)
  : scan_state * bool :=
  match current_line with
  | EmptyString => (st, false)
  | String char rest =>
      if Ascii.eqb char LBRACE then
        for_chars var_name rest
          (ScanState (bracket_count st + 1) true (output_lines st))
      else if Ascii.eqb char RBRACE then
        let st := ScanState (bracket_count st - 1) (found_opening st)
                    (output_lines st) in
        if closed st then
          (ScanState (bracket_count st) (found_opening st)
             (output_lines st ++ [connect_line var_name]), true)
        else for_chars var_name rest st
      else for_chars var_name rest st
  end.

(** Lines 27-46, [while j < len(lines)]: the final [j] and state. *)
Fixpoint inner_while (fuel : nat) (lines : list string) (var_name : string)
    (i j : nat) (st : scan_state) : option (nat * scan_state) :=
  match fuel with
  | O => None
  | S fuel =>
      match lines !! j with
      | None => Some (j, st)
      | Some current_line =>
          let st := fst (for_chars var_name current_line st) in
          if closed st then Some (j, st)
          else
            let st :=
              if (i <? j)%nat
              then ScanState (bracket_count st) (found_opening st)
                     (output_lines st ++ [current_line])
              else st in
            inner_while fuel lines var_name i (j + 1)%nat st
      end
  end.

(** Lines 13-50, [while i < len(lines)], with [out] for the list
    [output_lines]: its final value. *)
Fixpoint outer_while (fuel : nat) (lines : list string) (i : nat)
    (out : list string) : option (list string) :=
  match fuel with
  | O => None
  | S fuel =>
      match lines !! i with
      | None => Some out
      | Some line =>
          let out := out ++ [line] in
          match match_decl line with
          | Some var_name =>
              match inner_while (S (length lines)) lines var_name i i
                      (ScanState 0 false out) with
              | Some (j, st) =>
                  outer_while fuel lines (j + 1)%nat (output_lines st)
              | None => None
              end
          | None => outer_while fuel lines (i + 1)%nat out
          end
      end
  end.

(** The outer loop resumed at line [i] with [out] written so far. *)
Definition run_outer (lines : list string) (i : nat) (out : list string)
  : option (list string) :=
  outer_while (S (length lines)) lines i out.

(** Lines 10-50: from [lines] to the final [output_lines]. *)
Definition fix_lines (lines : list string) : option (list string) :=
  run_outer lines 0 [].

(** ** Files and the command line, lines 7-8 and 52-62 *)

(** Reading in text mode with the default [newline]: a carriage return
    followed by a line feed, and a carriage return alone, are both read as
    one line feed. *)
Fixpoint universal_newlines (s : string) : string :=
  match s with
  | EmptyString => EmptyString
  | String c rest =>
      if Ascii.eqb c CR then
        String NL
          match rest with
          | String c' rest' =>
              if Ascii.eqb c' NL then universal_newlines rest'
              else universal_newlines rest
          | EmptyString => EmptyString
          end
      else String c (universal_newlines rest)
  end.

(** A text cut after each line feed; a last line without line feed is kept
    as it is. *)
Fixpoint cut_lines (text : string) : list string :=
  match text with
  | EmptyString => []
  | String c rest =>
      if Ascii.eqb c NL then String c EmptyString :: cut_lines rest
      else match cut_lines rest with
           | [] => [String c EmptyString]
           | l :: ls => String c l :: ls
           end
  end.

(** [f.readlines()] of a file opened with [open(filename, 'r')], on the
    decoded content of the file. *)
Definition readlines (text : string) : list string :=
  cut_lines (universal_newlines text).

(** The text that [f.writelines(output_lines)] hands to the file, before
    the text layer turns the newlines and encodes. *)
Definition writelines (output_lines : list string) : string :=
  foldr String.append EmptyString output_lines.

(** Writing in text mode with the default [newline]: each line feed is
    written as the line separator of the platform. *)
Fixpoint translate_newlines (sep s : string) : string :=
  match s with
  | EmptyString => EmptyString
  | String c rest =>
      if Ascii.eqb c NL then sep +:+ translate_newlines sep rest
      else String c (translate_newlines sep rest)
  end.

Inductive exn : Type :=
| FileNotFoundError (filename : string)
| IsADirectoryError (filename : string)
| PermissionError (filename : string)
| UnicodeDecodeError
| UnicodeEncodeError.

Inductive result : Type := Returned | Raised (e : exn).

(** The text layer of [open] in text mode: the codec of the locale, from
    bytes to text and back, each failing on what it cannot convert, and
    [os.linesep]. *)
Record locale : Type := Locale {
  decode : string → option string;
  encode : string → option string;
  linesep : string
}.

(** What the program can observe and change: the paths that exist with the
    bytes they hold, what was printed, and the calls of [open] with their
    mode; and what it finds: the error, if any, with which [open] ends for
    an existing path and a mode (a directory, a missing permission), and
    the text layer. *)
Record world : Type := World {
  files : gmap string string;
  stdout : list string;
  opened : list (string * string);
  refuses : string → string → option exn;
  text_layer : locale
}.

Definition open_ (filename mode : string) (w : world) : world :=
  World (files w) (stdout w) (opened w ++ [(filename, mode)])
    (refuses w) (text_layer w).

Definition print (s : string) (w : world) : world :=
  World (files w) (stdout w ++ [s]) (opened w) (refuses w) (text_layer w).

Definition write_file (filename bytes : string) (w : world) : world :=
  World (<[filename := bytes]> (files w)) (stdout w) (opened w)
    (refuses w) (text_layer w).

(** Line 54 on a file just opened for writing, which is empty: each line
    has its newlines turned and is encoded, in turn. The bytes are those the
    file holds when it is closed; the boolean is [false] when a line could
    not be encoded, which ends the writing there. *)
Fixpoint write_lines (loc : locale) (output_lines : list string)
    (written : string) : string * bool :=
  match output_lines with
  | [] => (written, true)
  | line :: output_lines =>
      match encode loc (translate_newlines (linesep loc) line) with
      | Some bytes => write_lines loc output_lines (written +:+ bytes)
      | None => (written, false)
      end
  end.

(** Lines 6-54. [None] is a loop out of fuel. *)
Definition fix_eventbus_connections (filename : string) (w : world)
  : option (result * world) :=
  let w := open_ filename "r" w in
  match files w !! filename with
  | None => Some (Raised (FileNotFoundError filename), w)
  | Some bytes =>
      match refuses w filename "r" with
      | Some e => Some (Raised e, w)
      | None =>
          match decode (text_layer w) bytes with
          | None => Some (Raised UnicodeDecodeError, w)
          | Some text =>
              match fix_lines (readlines text) with
              | Some output_lines =>
                  let w := open_ filename "w" w in
                  match refuses w filename "w" with
                  | Some e => Some (Raised e, w)
                  | None =>
                      let (bytes, all) :=
                        write_lines (text_layer w) output_lines EmptyString in
                      let w := write_file filename bytes w in
                      Some (if all then Returned else Raised UnicodeEncodeError,
                            w)
                  end
              | None => None
              end
          end
      end
  end.

Definition usage : string := "Usage: python3 add-connect-calls.py <filename>".

(** Lines 56-62, with [sys.argv] as [argv]: the exit status and the world
    left. An exception nobody catches ends the process with status 1. *)
Definition main (argv : list string) (w : world) : option (Z * world) :=
  if negb (length argv =? 2)%nat then Some (1, print usage w)
  else
    match argv !! 1%nat with
    | Some filename =>
        match fix_eventbus_connections filename w with
        | Some (Returned, w) =>
            Some (0, print ("Fixed EventBus connections in " +:+ filename) w)
        | Some (Raised _, w) => Some (1, w)
        | None => None
        end
    | None => None
    end.

(** ** The loops on the lines still to read *)

(** The inner loop of lines 27-46 on the list of the lines from [j] on:
    how many lines it passes before it stops, and the state it leaves.
    [first] says that [j] is still [i]. *)
Fixpoint scan_lines (var_name : string) (first : bool) (ls : list string)
    (st : scan_state) : nat * scan_state :=
  match ls with
  | [] => (O, st)
  | current_line :: ls =>
      let st := fst (for_chars var_name current_line st) in
      if closed st then (O, st)
      else
        let st :=
          if first then st
          else ScanState (bracket_count st) (found_opening st)
                 (output_lines st ++ [current_line]) in
        let r := scan_lines var_name false ls st in
        (S (fst r), snd r)
  end.

(** The brace scan passes all of [ls] without stopping: the state it is left
    in, lines written apart. *)
Fixpoint scan_through (var_name : string) (ls : list string)
    (st : scan_state) : option scan_state :=
  match ls with
  | [] => Some st
  | current_line :: ls =>
      let st := fst (for_chars var_name current_line st) in
      if closed st then None else scan_through var_name ls st
  end.

(** The rewriter as a relation between the lines still to read and the lines
    written for them. *)
Inductive rewrites : list string → list string → Prop :=
| rewrites_end : rewrites [] []
| rewrites_copy line ls res :
    match_decl line = None →
    rewrites ls res →
    rewrites (line :: ls) (line :: res)
| rewrites_scan line ls var_name k st res :
    match_decl line = Some var_name →
    scan_lines var_name true (line :: ls) (ScanState 0 false []) = (k, st) →
    rewrites (drop k ls) res →
    rewrites (line :: ls) (line :: output_lines st ++ res).

(** A scan state with other lines written. *)
Definition with_out (st : scan_state) (out : list string) : scan_state :=
  ScanState (bracket_count st) (found_opening st) out.

(** No line of [ls] matches the pattern of line 18. *)
Definition no_match (ls : list string) : Prop :=
  Forall (λ line, match_decl line = None) ls.

(** ** Braces of a text *)

Fixpoint occurrences (c : ascii) (s : string) : nat :=
  match s with
  | EmptyString => O
  | String a s => ((if Ascii.eqb a c then 1 else 0) + occurrences c s)%nat
  end.

(** The braces of a line, everything else left out. *)
Fixpoint only_braces (s : string) : string :=
  match s with
  | EmptyString => EmptyString
  | String a s =>
      if Ascii.eqb a LBRACE || Ascii.eqb a RBRACE
      then String a (only_braces s) else only_braces s
  end.

(** Opening braces less closing braces. *)
Definition balance (s : string) : Z :=
  Z.of_nat (occurrences LBRACE s) - Z.of_nat (occurrences RBRACE s).

Definition has_opening (s : string) : bool := (0 <? occurrences LBRACE s)%nat.

(** ** Sample text *)

(** A line of text with its newline. *)
Definition ln (s : string) : string := s +:+ String NL EmptyString.

(** A line indented by one tab. *)
Definition tab (s : string) : string := String TAB s.


(** A system on which [open] refuses nothing, bytes are code points
    (ISO 8859-1) and the line separator is the line feed. *)
Definition no_refusal : string → string → option exn := λ _ _, None.

Definition latin1_posix : locale := Locale Some Some (String NL EmptyString).


Definition room_text : string :=
  ln "r := NewBasicRoom(Config{})".

Definition room_world : world :=
  World {[ "room.go" := room_text ]} [] [] no_refusal latin1_posix.

(** ** What a run may do to the lines *)

(** The line has a brace. *)
Definition has_brace (line : string) : bool :=
  (0 <? occurrences LBRACE line + occurrences RBRACE line)%nat.

(** [patched src ls out]: [out] is [ls] with some lines that have a brace
    left out and with calls put in, each on the identifier of a matching
    line of [src]; the lines kept are in the order they had. *)
Inductive patched (src : list string) : list string → list string → Prop :=
| patched_end : patched src [] []
| patched_keep line ls out :
    patched src ls out → patched src (line :: ls) (line :: out)
| patched_lose line ls out :
    has_brace line = true → patched src ls out → patched src (line :: ls) out
| patched_call d v ls out :
    d ∈ src → match_decl d = Some v →
    patched src ls out → patched src ls (connect_line v :: out).

(** The line matches the pattern of line 18. *)
Definition matches (line : string) : bool :=
  match match_decl line with Some _ => true | None => false end.

(** The number of matching lines. *)
Definition count_matches (ls : list string) : nat :=
  length (filter (λ line, matches line = true) ls).

(** ** Lines of a text *)

(** The text has no newline. *)
Definition no_newline (s : string) : bool :=
  every (λ c, negb (Ascii.eqb c NL)) s.

(** A line that ends with its newline and has no other. *)
Definition complete_line (l : string) : Prop :=
  ∃ body, no_newline body = true ∧ l = body +:+ String NL EmptyString.

(** What can stand after the last newline of a text: nothing, or one line
    that is not empty and has no newline. *)
Definition last_lines (tl : list string) : Prop :=
  tl = [] ∨ ∃ l, tl = [l] ∧ no_newline l = true ∧ l ≠ EmptyString.

(** A file whose last line has no newline. *)
Definition unterminated_text : string :=
  ln "package main" +:+ "r := NewBasicRoom(Config{})".

Definition unterminated_world : world :=
  World {[ "last.go" := unterminated_text ]} [] [] no_refusal latin1_posix.

(** ** Declarations that close on their line *)

(** The line, followed by its call when it matches. *)
Definition with_call (line : string) : list string :=
  match match_decl line with
  | Some var_name => [line; connect_line var_name]
  | None => [line]
  end.

(** If the line matches, the character loop leaves it through [break]. *)
Definition closes_on_line (line : string) : Prop :=
  ∀ v, match_decl line = Some v →
       snd (for_chars v line (ScanState 0 false [])) = true.

(** ** The text layer *)

Definition lf : string := String NL EmptyString.
Definition crlf : string := String CR (String NL EmptyString).




(** A file that may be read but not written. *)
Definition read_only : string → string → option exn :=
  λ path mode, if String.eqb mode "w" then Some (PermissionError path) else None.

Definition locked_world : world :=
  World {[ "room.go" := room_text ]} [] [] read_only latin1_posix.

(** * Lemmas *)

(** ** The pattern *)

Lemma append_cons a (p q : string) : String a p +:+ q = String a (p +:+ q).
Proof. reflexivity. Qed.

Lemma append_empty_l (q : string) : EmptyString +:+ q = q.
Proof. reflexivity. Qed.

Lemma append_empty_inv (p q : string) :
  p +:+ q = EmptyString → p = EmptyString ∧ q = EmptyString.
Proof.
  destruct p; [|discriminate]. intros H. split; [reflexivity | exact H].
Qed.

Lemma append_inj_l (p a b : string) : p +:+ a = p +:+ b → a = b.
Proof.
  induction p as [|c p IH]; [intros H; exact H|].
  rewrite !append_cons. intros [= H]. by apply IH.
Qed.

Lemma in_bind {A B} (m : Re.matcher A) (k : A → Re.matcher B) inp b rest :
  In (b, rest) (Re.bind m k inp)
  ↔ ∃ a mid, In (a, mid) (m inp) ∧ In (b, rest) (k a mid).
Proof.
  unfold Re.bind. rewrite in_flat_map. split.
  - intros ([a mid] & H1 & H2). by exists a, mid.
  - intros (a & mid & H1 & H2). by exists (a, mid).
Qed.

Lemma in_ret {A} (a b : A) inp rest :
  In (b, rest) (Re.ret a inp) ↔ b = a ∧ rest = inp.
Proof.
  unfold Re.ret. simpl. split.
  - intros [H|[]]. by injection H as -> ->.
  - intros [-> ->]. by left.
Qed.

Lemma strip_prefix_iff p s rest :
  Re.strip_prefix p s = Some rest ↔ s = p +:+ rest.
Proof.
  revert s. induction p as [|a p IH]; intros s; simpl.
  - change (EmptyString +:+ rest) with rest.
    split; [by intros [= ->] | by intros ->].
  - destruct s as [|b s]; [split; discriminate|].
    rewrite append_cons. destruct (Ascii.eqb a b) eqn:E.
    + apply Ascii.eqb_eq in E. subst b. rewrite IH.
      split; [by intros -> | by intros [= ->]].
    + apply Ascii.eqb_neq in E. split; [discriminate | by intros [= -> ->]].
Qed.

Lemma in_lit p inp u rest : In (u, rest) (Re.lit p inp) ↔ inp = p +:+ rest.
Proof.
  unfold Re.lit. destruct (Re.strip_prefix p inp) as [r|] eqn:E.
  - apply strip_prefix_iff in E. subst inp. simpl. split.
    + intros [H|[]]. by injection H as _ ->.
    + intros H. left. destruct u. f_equal. by apply (append_inj_l p).
  - simpl. split; [done|]. intros H. apply strip_prefix_iff in H. congruence.
Qed.

Lemma in_star cls inp s rest :
  In (s, rest) (Re.star cls inp) ↔ inp = s +:+ rest ∧ every cls s = true.
Proof.
  revert s rest. induction inp as [|c inp IH]; intros s rest; simpl.
  - split.
    + intros [H|[]]. by injection H as <- <-.
    + intros [H _]. symmetry in H. apply append_empty_inv in H as [-> ->].
      by left.
  - destruct (cls c) eqn:Hc.
    + rewrite in_app_iff, in_map_iff. simpl. split.
      * intros [([s' r'] & H1 & H2)|[H|[]]].
        -- simpl in H1. injection H1 as <- <-. apply IH in H2 as [-> H2].
           simpl. by rewrite Hc, H2.
        -- by injection H as <- <-.
      * intros [H1 H2]. destruct s as [|c' s].
        -- right. left. rewrite append_empty_l in H1. by subst rest.
        -- rewrite append_cons in H1. injection H1 as <- ->.
           simpl in H2. apply andb_true_iff in H2 as [_ H2].
           left. exists (s, rest). split; [done|]. by apply IH.
    + split.
      * intros [H|[]]. by injection H as <- <-.
      * intros [H1 H2]. destruct s as [|c' s].
        -- left. rewrite append_empty_l in H1. by subst rest.
        -- rewrite append_cons in H1. injection H1 as <- ->.
           simpl in H2. by rewrite Hc in H2.
Qed.

Lemma in_plus cls inp s rest :
  In (s, rest) (Re.plus cls inp)
  ↔ inp = s +:+ rest ∧ every cls s = true ∧ s ≠ EmptyString.
Proof.
  unfold Re.plus. destruct inp as [|c inp].
  - split; [done|]. intros (H & _ & Hs). symmetry in H.
    by apply append_empty_inv in H as [-> _].
  - destruct (cls c) eqn:Hc.
    + rewrite in_map_iff. split.
      * intros ([s' r'] & H1 & H2). simpl in H1. injection H1 as <- <-.
        apply in_star in H2 as [-> H2]. simpl. by rewrite Hc, H2.
      * intros (H1 & H2 & Hs). destruct s as [|c' s]; [done|].
        rewrite append_cons in H1. injection H1 as <- ->.
        simpl in H2. apply andb_true_iff in H2 as [_ H2].
        exists (s, rest). split; [done|]. by apply in_star.
    + split; [done|]. intros (H1 & H2 & Hs). destruct s as [|c' s]; [done|].
      rewrite append_cons in H1. injection H1 as <- ->.
      simpl in H2. by rewrite Hc in H2.
Qed.

Lemma in_opt m inp u rest :
  In (u, rest) (Re.opt m inp) ↔ In (u, rest) (m inp) ∨ rest = inp.
Proof.
  unfold Re.opt. rewrite in_app_iff. simpl. split.
  - intros [H|[H|[]]]; [by left|]. right. by injection H as _ <-.
  - intros [H| ->]; [by left|]. right. left. by destruct u.
Qed.

Lemma in_alt m1 m2 inp u rest :
  In (u, rest) (Re.alt m1 m2 inp)
  ↔ In (u, rest) (m1 inp) ∨ In (u, rest) (m2 inp).
Proof. unfold Re.alt. apply in_app_iff. Qed.

Lemma in_declaration line v rest :
  In (v, rest) (declaration line)
  ↔ ∃ ws1 ws2 ws3 qual name,
      line = ws1 +:+ v +:+ ws2 +:+ ":=" +:+ ws3 +:+ qual +:+ "New" +:+ name
                 +:+ "(" +:+ rest
      ∧ every is_space ws1 = true
      ∧ every is_word v = true ∧ v ≠ EmptyString
      ∧ every is_space ws2 = true
      ∧ every is_space ws3 = true
      ∧ (qual = EmptyString ∨ qual = "spatial.")
      ∧ (name = "BasicRoom" ∨ name = "BasicRoomOrchestrator").
Proof.
  unfold declaration. split.
  - intros H.
    apply in_bind in H as (ws1 & r1 & H1 & H). apply in_star in H1 as [-> Hws1].
    apply in_bind in H as (v' & r2 & H2 & H).
    apply in_plus in H2 as (-> & Hv & Hne).
    apply in_bind in H as (ws2 & r3 & H3 & H). apply in_star in H3 as [-> Hws2].
    apply in_bind in H as (u4 & r4 & H4 & H). apply in_lit in H4 as ->.
    apply in_bind in H as (ws3 & r5 & H5 & H). apply in_star in H5 as [-> Hws3].
    apply in_bind in H as (u6 & r6 & H6 & H).
    apply in_bind in H as (u7 & r7 & H7 & H). apply in_lit in H7 as ->.
    apply in_bind in H as (u8 & r8 & H8 & H).
    apply in_bind in H as (u9 & r9 & H9 & H). apply in_lit in H9 as ->.
    apply in_ret in H as [-> ->].
    apply in_opt in H6 as [H6|H6]; [apply in_lit in H6|];
      apply in_alt in H8 as [H8|H8]; apply in_lit in H8; subst.
    + exists ws1, ws2, ws3, "spatial.", "BasicRoom". by auto 10.
    + exists ws1, ws2, ws3, "spatial.", "BasicRoomOrchestrator". by auto 10.
    + exists ws1, ws2, ws3, EmptyString, "BasicRoom". by auto 10.
    + exists ws1, ws2, ws3, EmptyString, "BasicRoomOrchestrator". by auto 10.
  - intros (ws1 & ws2 & ws3 & qual & name & -> & H1 & Hv & Hne & H2 & H3 & Hq & Hn).
    apply in_bind. eexists _, _. split; [apply in_star; by split|].
    apply in_bind. eexists _, _. split; [apply in_plus; by split|].
    apply in_bind. eexists _, _. split; [apply in_star; by split|].
    apply in_bind. eexists tt, _. split; [by apply in_lit|].
    apply in_bind. eexists _, _. split; [apply in_star; by split|].
    apply in_bind. eexists tt, ("New" +:+ name +:+ "(" +:+ rest). split.
    { apply in_opt. destruct Hq as [-> | ->]; [by right|left; by apply in_lit]. }
    apply in_bind. eexists tt, _. split; [by apply in_lit|].
    apply in_bind. eexists tt, ("(" +:+ rest). split.
    { apply in_alt. destruct Hn as [-> | ->]; [left|right]; by apply in_lit. }
    apply in_bind. eexists tt, _. split; [by apply in_lit|].
    by apply in_ret.
Qed.

(** A word character is no white space. *)
Lemma word_not_space c : is_word c = true → is_space c = false.
Proof.
  destruct c as [[] [] [] [] [] [] [] []]; vm_compute; congruence.
Qed.

Lemma space_not_word c : is_space c = true → is_word c = false.
Proof.
  intros Hs. destruct (is_word c) eqn:Hw; [|done].
  apply word_not_space in Hw. congruence.
Qed.

(** A run of a class that ends where the class ends is determined by the
    text. *)
Lemma run_unique cls (a b x y : string) :
  every cls a = true → every cls b = true →
  stops_class cls x → stops_class cls y →
  a +:+ x = b +:+ y → a = b ∧ x = y.
Proof.
  revert b. induction a as [|c a IH]; intros [|c' b] Ha Hb Hx Hy H.
  - by rewrite !append_empty_l in H.
  - rewrite append_empty_l, append_cons in H. subst x. simpl in *.
    apply andb_true_iff in Hb as [Hb _]. congruence.
  - rewrite append_empty_l, append_cons in H. subst y. simpl in *.
    apply andb_true_iff in Ha as [Ha _]. congruence.
  - rewrite !append_cons in H. injection H as <- H. simpl in *.
    apply andb_true_iff in Ha as [_ Ha]. apply andb_true_iff in Hb as [_ Hb].
    destruct (IH b Ha Hb Hx Hy H) as [-> ->]. done.
Qed.

Lemma stops_space_word v r :
  every is_word v = true → v ≠ EmptyString → stops_class is_space (v +:+ r).
Proof.
  destruct v as [|c v]; [done|]. intros H _. simpl in H.
  apply andb_true_iff in H as [H _]. rewrite append_cons. simpl.
  by apply word_not_space.
Qed.

Lemma stops_word_assign ws r :
  every is_space ws = true → stops_class is_word (ws +:+ ":=" +:+ r).
Proof.
  destruct ws as [|c ws]; [done|]. intros H. simpl in H.
  apply andb_true_iff in H as [H _]. rewrite append_cons. simpl.
  by apply space_not_word.
Qed.

Lemma declaration_shape_unique line v v' :
  declaration_shape line v → declaration_shape line v' → v = v'.
Proof.
  intros (ws1 & ws2 & ws3 & q & n & t & -> & H1 & Hv & Hne & H2 & _)
         (ws1' & ws2' & ws3' & q' & n' & t' & E & H1' & Hv' & Hne' & H2' & _).
  apply run_unique with (cls := is_space) in E as [_ E];
    [|done|done|by apply stops_space_word..].
  apply run_unique with (cls := is_word) in E as [E _];
    [done|done|done|by apply stops_word_assign..].
Qed.

(** [re.match] succeeds with group 1 = [v] exactly on the lines of the
    shape, and the identifier of a line is unique. *)
Lemma match_decl_shape line v :
  match_decl line = Some v ↔ declaration_shape line v.
Proof.
  assert (Hhead : ∀ v, match_decl line = Some v → declaration_shape line v).
  { intros v0. unfold match_decl, Re.re_match.
    destruct (declaration line) as [|[v' rest] l] eqn:E; [discriminate|].
    intros [= <-]. simpl.
    assert (Hin : In (v', rest) (declaration line)) by (rewrite E; by left).
    apply in_declaration in Hin as (ws1 & ws2 & ws3 & q & n & Hin).
    by exists ws1, ws2, ws3, q, n, rest. }
  split; [apply Hhead|]. intros Hs.
  destruct (match_decl line) as [v'|] eqn:Hm.
  - f_equal. apply (declaration_shape_unique line); [by apply Hhead | done].
  - destruct Hs as (ws1 & ws2 & ws3 & q & n & t & Hs).
    assert (Hin : In (v, t) (declaration line)).
    { apply in_declaration. by exists ws1, ws2, ws3, q, n. }
    unfold match_decl, Re.re_match in Hm.
    by destruct (declaration line).
Qed.

Lemma match_decl_None line :
  match_decl line = None ↔ ∀ v, ¬ declaration_shape line v.
Proof.
  split.
  - intros Hm v Hs. apply match_decl_shape in Hs. congruence.
  - intros H. destruct (match_decl line) as [v|] eqn:Hm; [|done].
    apply match_decl_shape in Hm. by destruct (H v).
Qed.

(** ** The character loop *)

(** The three cases of the body of the loop: an opening brace, a closing
    brace, any other character. *)
Ltac brace_cases c :=
  destruct (Ascii.eqb c LBRACE) eqn:?;
  [| destruct (Ascii.eqb c RBRACE) eqn:?].

Lemma closed_with_out st out : closed (with_out st out) = closed st.
Proof. reflexivity. Qed.

Section CharLoop.

Variable v : string.

(** What was written before the loop is kept, and has no influence. *)
Lemma for_chars_out line bc fo out :
  for_chars v line (ScanState bc fo out)
  = let r := for_chars v line (ScanState bc fo []) in
    (with_out (fst r) (out ++ output_lines (fst r)), snd r).
Proof.
  revert bc fo. induction line as [|c line IH]; intros bc fo; simpl.
  - by rewrite app_nil_r.
  - brace_cases c; [apply IH| |apply IH].
    unfold closed; simpl.
    destruct (fo && (bc - 1 =? 0)); [reflexivity | apply IH].
Qed.

(** [break] is taken exactly when the loop writes, and it writes the call. *)
Lemma for_chars_broke line st :
  snd (for_chars v line st) = true →
  closed (fst (for_chars v line st)) = true
  ∧ output_lines (fst (for_chars v line st))
    = output_lines st ++ [connect_line v].
Proof.
  revert st. induction line as [|c line IH]; intros st; simpl; [done|].
  brace_cases c; [exact (IH (ScanState _ _ _))| |apply IH].
  destruct (closed _) eqn:Hc; [|exact (IH (ScanState _ _ _))].
  simpl. intros _. split; [exact Hc | reflexivity].
Qed.

Lemma for_chars_no_break line st :
  snd (for_chars v line st) = false →
  output_lines (fst (for_chars v line st)) = output_lines st.
Proof.
  revert st. induction line as [|c line IH]; intros st; simpl; [done|].
  brace_cases c; [exact (IH (ScanState _ _ _))| |apply IH].
  destruct (closed _) eqn:Hc; [done | exact (IH (ScanState _ _ _))].
Qed.

Lemma for_chars_open line st :
  closed (fst (for_chars v line st)) = false →
  output_lines (fst (for_chars v line st)) = output_lines st.
Proof.
  intros Hc. apply for_chars_no_break.
  destruct (snd (for_chars v line st)) eqn:Hb; [|done].
  apply for_chars_broke in Hb as [Hb _]. congruence.
Qed.

End CharLoop.

(** ** The inner loop *)

Lemma scan_lines_out v first ls bc fo out :
  scan_lines v first ls (ScanState bc fo out)
  = let r := scan_lines v first ls (ScanState bc fo []) in
    (fst r, with_out (snd r) (out ++ output_lines (snd r))).
Proof.
  revert first bc fo out.
  induction ls as [|l ls IH]; intros first bc fo out; simpl.
  - by rewrite app_nil_r.
  - rewrite (for_chars_out v l bc fo out). simpl.
    destruct (for_chars v l (ScanState bc fo [])) as [[bc1 fo1 o1] b]. simpl.
    unfold closed; simpl. destruct (fo1 && (bc1 =? 0)); [reflexivity|].
    destruct first; unfold with_out; simpl.
    + rewrite (IH false bc1 fo1 (out ++ o1)), (IH false bc1 fo1 o1). simpl.
      by rewrite app_assoc.
    + rewrite (IH false bc1 fo1 ((out ++ o1) ++ [l])),
        (IH false bc1 fo1 (o1 ++ [l])). simpl.
      by rewrite !app_assoc.
Qed.

(** The loop of lines 27-46 is the scan of the lines from [j] on, and fuel
    for the lines that are left is enough. *)
Lemma inner_while_fuel fuel lines v i j st :
  (i ≤ j)%nat → (length lines - j < fuel)%nat →
  inner_while fuel lines v i j st
  = Some ((j + fst (scan_lines v (bool_decide (j = i)) (drop j lines) st))%nat,
          snd (scan_lines v (bool_decide (j = i)) (drop j lines) st)).
Proof.
  revert j st. induction fuel as [|fuel IH]; intros j st Hij Hfuel; [lia|].
  simpl. destruct (lines !! j) as [l|] eqn:Hl.
  - rewrite (drop_S _ _ _ Hl). simpl.
    destruct (closed _) eqn:Hc.
    + by rewrite Nat.add_0_r.
    + assert (Hlt : (j < length lines)%nat) by (eapply lookup_lt_Some; eauto).
      rewrite IH by lia.
      rewrite (bool_decide_eq_false_2 (j + 1 = i)%nat) by lia.
      replace (j + 1)%nat with (S j) by lia.
      destruct (bool_decide (j = i)) eqn:Hd.
      * apply bool_decide_eq_true_1 in Hd. subst j.
        rewrite Nat.ltb_irrefl. simpl. do 2 f_equal. lia.
      * apply bool_decide_eq_false_1 in Hd.
        rewrite (proj2 (Nat.ltb_lt i j)) by lia. simpl. do 2 f_equal. lia.
  - apply lookup_ge_None in Hl. rewrite drop_ge by lia. simpl.
    by rewrite Nat.add_0_r.
Qed.

(** ** The outer loop *)

Lemma drop_cons_inv (lines : list string) i line ls :
  drop i lines = line :: ls →
  lines !! i = Some line ∧ ls = drop (S i) lines ∧ (i < length lines)%nat.
Proof.
  intros H. assert (Hl : lines !! i = Some line).
  { rewrite <- (Nat.add_0_r i), <- lookup_drop, H. reflexivity. }
  split; [exact Hl|]. split.
  - rewrite (drop_S _ _ _ Hl) in H. congruence.
  - eapply lookup_lt_Some; eauto.
Qed.

(** The loop of lines 13-50 writes what [rewrites] says for the lines from
    [i] on, after what was written before; fuel for the lines that are left
    is enough. *)
Lemma outer_while_fuel fuel lines i out res :
  rewrites (drop i lines) res →
  (length lines - i < fuel)%nat →
  outer_while fuel lines i out = Some (out ++ res).
Proof.
  intros H. remember (drop i lines) as todo eqn:Htodo.
  revert fuel i out Htodo.
  induction H as [|line ls res Hm H IH|line ls v k st res Hm Hs H IH];
    intros fuel i out Htodo Hfuel;
    (destruct fuel as [|fuel]; [lia|]); cbn [outer_while].
  - assert (Hge : (length lines ≤ i)%nat).
    { destruct (Nat.le_gt_cases (length lines) i) as [|Hlt]; [done|].
      apply (f_equal length) in Htodo. rewrite length_drop in Htodo.
      simpl in Htodo. lia. }
    rewrite (proj2 (lookup_ge_None lines i) Hge). by rewrite app_nil_r.
  - symmetry in Htodo. apply drop_cons_inv in Htodo as (Hl & Hls & Hlt).
    rewrite Hl, Hm.
    rewrite (IH fuel (i + 1)%nat (out ++ [line])).
    + by rewrite <- app_assoc.
    + by rewrite Nat.add_1_r.
    + lia.
  - symmetry in Htodo. pose proof Htodo as Hdrop.
    apply drop_cons_inv in Htodo as (Hl & Hls & Hlt).
    rewrite Hl, Hm.
    rewrite inner_while_fuel by lia.
    rewrite bool_decide_eq_true_2 by done.
    rewrite Hdrop, scan_lines_out, Hs. simpl.
    rewrite (IH fuel (i + k + 1)%nat ((out ++ [line]) ++ output_lines st)).
    + by rewrite <- !app_assoc.
    + rewrite Hls, drop_drop. f_equal. lia.
    + lia.
Qed.

(** Every list of lines is rewritten to some list: the loops end. *)
Lemma rewrites_total ls : ∃ res, rewrites ls res.
Proof.
  remember (length ls) as n eqn:Hn.
  revert ls Hn. induction n as [n IH] using lt_wf_ind. intros ls Hn.
  destruct ls as [|line ls].
  - exists []. constructor.
  - simpl in Hn. destruct (match_decl line) as [v|] eqn:Hm.
    + destruct (scan_lines v true (line :: ls) (ScanState 0 false []))
        as [k st] eqn:Hs.
      destruct (IH (length (drop k ls))) with (ls := drop k ls) as [res Hres];
        [rewrite length_drop; lia | reflexivity |].
      exists (line :: output_lines st ++ res).
      eapply rewrites_scan; eauto.
    + destruct (IH (length ls)) with (ls := ls) as [res Hres];
        [lia | reflexivity |].
      exists (line :: res). by constructor.
Qed.

Lemma run_outer_rewrites pre ls out res :
  rewrites ls res →
  run_outer (pre ++ ls) (length pre) out = Some (out ++ res).
Proof.
  intros H. unfold run_outer. apply outer_while_fuel; [|lia].
  by rewrite drop_app_length.
Qed.

Lemma fix_lines_rewrites ls res : rewrites ls res → fix_lines ls = Some res.
Proof. intros H. exact (run_outer_rewrites [] ls [] res H). Qed.

Lemma fix_lines_inv ls res : fix_lines ls = Some res → rewrites ls res.
Proof.
  intros H. destruct (rewrites_total ls) as [res' Hres].
  rewrite (fix_lines_rewrites _ _ Hres) in H. congruence.
Qed.

(** The rewriter always returns. *)
Lemma fix_lines_total ls : is_Some (fix_lines ls).
Proof.
  destruct (rewrites_total ls) as [res Hres].
  rewrite (fix_lines_rewrites _ _ Hres). by eexists.
Qed.

(** Resumed at line [length pre], the outer loop goes on as the rewriter of
    the lines that are left. *)
Lemma run_outer_app pre ls out :
  run_outer (pre ++ ls) (length pre) out = (λ res, out ++ res) <$> fix_lines ls.
Proof.
  destruct (rewrites_total ls) as [res Hres].
  by rewrite (run_outer_rewrites _ _ _ _ Hres), (fix_lines_rewrites _ _ Hres).
Qed.

Lemma fix_lines_nil : fix_lines [] = Some [].
Proof. reflexivity. Qed.

Lemma fix_lines_copy line ls :
  match_decl line = None →
  fix_lines (line :: ls) = (λ res, line :: res) <$> fix_lines ls.
Proof.
  intros Hm. destruct (rewrites_total ls) as [res Hres].
  rewrite (fix_lines_rewrites _ _ Hres).
  apply fix_lines_rewrites. by constructor.
Qed.

Lemma fix_lines_scan line ls v :
  match_decl line = Some v →
  fix_lines (line :: ls)
  = let r := scan_lines v true (line :: ls) (ScanState 0 false []) in
    (λ res, line :: output_lines (snd r) ++ res) <$> fix_lines (drop (fst r) ls).
Proof.
  intros Hm.
  destruct (scan_lines v true (line :: ls) (ScanState 0 false [])) as [k st] eqn:Hs.
  destruct (rewrites_total (drop k ls)) as [res Hres]. simpl.
  rewrite (fix_lines_rewrites _ _ Hres).
  apply fix_lines_rewrites. eapply rewrites_scan; eauto.
Qed.

(** ** A scan that passes lines without stopping *)

Lemma scan_through_out v ls st st' out :
  scan_through v ls st = Some st' →
  scan_through v ls (with_out st out) = Some (with_out st' out).
Proof.
  revert st out. induction ls as [|l ls IH]; intros [bc fo o] out H; simpl in *.
  - by injection H as <-.
  - unfold with_out at 1 2; simpl.
    rewrite (for_chars_out v l bc fo o) in H.
    rewrite (for_chars_out v l bc fo out). simpl in *.
    rewrite closed_with_out in *.
    destruct (closed (for_chars v l (ScanState bc fo [])).1) eqn:Hc; [done|].
    apply for_chars_open in Hc. simpl in Hc. rewrite Hc, app_nil_r in *.
    exact (IH _ out H).
Qed.

Lemma with_out_id st : with_out st (output_lines st) = st.
Proof. by destruct st. Qed.

(** The inner loop over lines that the scan passes: they are all read, and
    all written but the first one, which the outer loop wrote. *)
Lemma scan_lines_through v ls more first st st' :
  scan_through v ls st = Some st' →
  scan_lines v first (ls ++ more) st
  = let r := scan_lines v (first && bool_decide (ls = [])) more
               (with_out st' (output_lines st ++ if first then tail ls else ls)) in
    ((length ls + fst r)%nat, snd r).
Proof.
  revert first st st'.
  induction ls as [|l ls IH]; intros first st st' H; simpl in *.
  - injection H as <-. rewrite andb_true_r.
    replace (if first then [] else []) with (@nil string) by (by destruct first).
    rewrite app_nil_r, with_out_id. by destruct (scan_lines _ _ _ _).
  - destruct (closed (for_chars v l st).1) eqn:Hc; [done|].
    pose proof (for_chars_open _ _ _ Hc) as Ho.
    rewrite andb_false_r.
    destruct first.
    + rewrite (IH false _ _ H). simpl. by rewrite Ho.
    + apply scan_through_out
        with (out := output_lines (for_chars v l st).1 ++ [l]) in H.
      unfold with_out at 1 in H. rewrite (IH false _ _ H). simpl.
      by rewrite Ho, <- app_assoc.
Qed.

(** ** Lines that do not match *)

Lemma fix_lines_no_match ls : no_match ls → fix_lines ls = Some ls.
Proof.
  induction 1 as [|line ls Hm _ IH]; [reflexivity|].
  by rewrite (fix_lines_copy _ _ Hm), IH.
Qed.

Lemma fix_lines_prefix pre ls :
  no_match pre → fix_lines (pre ++ ls) = (λ res, pre ++ res) <$> fix_lines ls.
Proof.
  induction 1 as [|line pre Hm _ IH]; simpl.
  - by destruct (fix_lines ls).
  - rewrite (fix_lines_copy _ _ Hm), IH. by destruct (fix_lines ls).
Qed.

(** ** A declaration the outer loop stands on *)

Lemma for_chars_snd_out v line st out :
  snd (for_chars v line (with_out st out)) = snd (for_chars v line st).
Proof.
  destruct st as [bc fo o]. unfold with_out; simpl.
  by rewrite (for_chars_out v line bc fo out), (for_chars_out v line bc fo o).
Qed.

(** The scan stops on the declaration line through [break]. *)
Lemma fix_lines_one_line d rest v :
  match_decl d = Some v →
  snd (for_chars v d (ScanState 0 false [])) = true →
  fix_lines (d :: rest)
  = (λ res, d :: connect_line v :: res) <$> fix_lines rest.
Proof.
  intros Hm Hb. rewrite (fix_lines_scan _ _ _ Hm). simpl.
  destruct (for_chars_broke _ _ _ Hb) as [Hc Ho].
  rewrite Hc. simpl. rewrite Ho. reflexivity.
Qed.

(** The scan passes the declaration line and [body], and stops on [c]
    through [break]. *)
Lemma fix_lines_closing d body c rest v st :
  match_decl d = Some v →
  scan_through v (d :: body) (ScanState 0 false []) = Some st →
  snd (for_chars v c st) = true →
  fix_lines (d :: body ++ c :: rest)
  = (λ res, d :: body ++ connect_line v :: res) <$> fix_lines rest.
Proof.
  intros Hm Hs Hb. rewrite (fix_lines_scan _ _ _ Hm).
  change (d :: body ++ c :: rest) with ((d :: body) ++ c :: rest).
  rewrite (scan_lines_through _ _ _ _ _ _ Hs).
  cbn [tail bracket_count found_opening output_lines andb app].
  rewrite <- (for_chars_snd_out v c st body) in Hb.
  destruct (for_chars_broke _ _ _ Hb) as [Hc Ho].
  cbn [scan_lines]. rewrite Hc. cbn [fst snd length].
  rewrite Ho. cbn [with_out output_lines].
  replace (drop (S (length body) + 0) (body ++ c :: rest)) with rest.
  - destruct (fix_lines rest); simpl; [|done]. by rewrite <- app_assoc.
  - rewrite Nat.add_0_r. change (S (length body)) with (1 + length body)%nat.
    rewrite Nat.add_comm, <- drop_drop, drop_app_length. reflexivity.
Qed.

(** The scan passes every line that is left. *)
Lemma fix_lines_unclosed d rest v st :
  match_decl d = Some v →
  scan_through v (d :: rest) (ScanState 0 false []) = Some st →
  fix_lines (d :: rest) = Some (d :: rest).
Proof.
  intros Hm Hs. rewrite (fix_lines_scan _ _ _ Hm).
  pose proof (scan_lines_through v (d :: rest) [] true _ _ Hs) as E.
  rewrite app_nil_r in E. rewrite E.
  cbn [tail scan_lines fst snd with_out output_lines app length].
  rewrite drop_ge by lia. simpl. by rewrite app_nil_r.
Qed.

(** ** The character loop and the text around a brace *)

Lemma for_chars_app v p q st :
  snd (for_chars v p st) = false →
  for_chars v (p +:+ q) st = for_chars v q (fst (for_chars v p st)).
Proof.
  revert st. induction p as [|c p IH]; intros st; simpl; [done|].
  destruct (Ascii.eqb c LBRACE); [exact (IH (ScanState _ _ _))|].
  destruct (Ascii.eqb c RBRACE); [|apply IH].
  destruct (closed _); [done | exact (IH (ScanState _ _ _))].
Qed.

Lemma for_chars_only_braces v line st :
  for_chars v (only_braces line) st = for_chars v line st.
Proof.
  revert st. induction line as [|c line IH]; intros st; simpl; [done|].
  destruct (Ascii.eqb c LBRACE) eqn:HL; simpl.
  - rewrite HL. apply IH.
  - destruct (Ascii.eqb c RBRACE) eqn:HR; simpl; [|apply IH].
    rewrite HL, HR. destruct (closed _); [reflexivity | apply IH].
Qed.

(** A line read to its end leaves the count of its opening braces less that
    of its closing braces, whatever stands between them. *)
Lemma for_chars_through v p st :
  snd (for_chars v p st) = false →
  fst (for_chars v p st)
  = ScanState
      (bracket_count st + Z.of_nat (occurrences LBRACE p)
       - Z.of_nat (occurrences RBRACE p))
      (found_opening st || (0 <? occurrences LBRACE p)%nat)
      (output_lines st).
Proof.
  revert st. induction p as [|c p IH]; intros [bc fo out]; simpl.
  - intros _. rewrite orb_false_r. f_equal. lia.
  - destruct (Ascii.eqb c LBRACE) eqn:HL.
    + apply Ascii.eqb_eq in HL. subst c. intros H.
      rewrite (IH _ H). simpl. rewrite orb_true_r. f_equal. lia.
    + destruct (Ascii.eqb c RBRACE) eqn:HR.
      * destruct (closed _) eqn:Hc; [done|]. intros H.
        rewrite (IH _ H). simpl. f_equal. lia.
      * intros H. rewrite (IH _ H). simpl. f_equal.
Qed.

(** ** The count never back at zero, said on the text *)

Lemma occurrences_app c p q :
  occurrences c (p +:+ q) = (occurrences c p + occurrences c q)%nat.
Proof. induction p as [|a p IH]; simpl; [done|]. rewrite IH. lia. Qed.

Lemma append_assoc' (p q r : string) : (p +:+ q) +:+ r = p +:+ (q +:+ r).
Proof.
  induction p as [|a p IH]; [reflexivity|].
  change (String a ((p +:+ q) +:+ r) = String a (p +:+ (q +:+ r))).
  by rewrite IH.
Qed.

(** If no part of the line read so far leaves the count at zero after an
    opening brace, the character loop reads the line to its end. *)
Lemma for_chars_never_zero v line bc fo out :
  (∀ p q, line = p +:+ q →
          fo || has_opening p = true → bc + balance p ≠ 0) →
  snd (for_chars v line (ScanState bc fo out)) = false.
Proof.
  revert bc fo. induction line as [|c line IH]; intros bc fo H; simpl; [done|].
  destruct (Ascii.eqb c LBRACE) eqn:HL.
  - apply IH. intros p q -> Hp.
    specialize (H (String c p) q eq_refl).
    unfold balance, has_opening in *. simpl in H. rewrite HL in H.
    apply Ascii.eqb_eq in HL. subst c. simpl in H.
    specialize (H (orb_true_r _)). lia.
  - destruct (Ascii.eqb c RBRACE) eqn:HR.
    + assert (Hstep : ∀ p q, line = p +:+ q →
                fo || has_opening p = true → bc - 1 + balance p ≠ 0).
      { intros p q -> Hp. specialize (H (String c p) q eq_refl).
        unfold balance, has_opening in *. simpl in H. rewrite HL, HR in H.
        simpl in H. specialize (H Hp). lia. }
      unfold closed; simpl. destruct (fo && (bc - 1 =? 0)) eqn:Hc.
      * apply andb_true_iff in Hc as [-> Hz]. apply Z.eqb_eq in Hz.
        specialize (Hstep EmptyString line eq_refl eq_refl).
        unfold balance in Hstep. simpl in Hstep. lia.
      * by apply IH.
    + apply IH. intros p q -> Hp. specialize (H (String c p) q eq_refl).
      unfold balance, has_opening in *. simpl in H. rewrite HL, HR in H.
      simpl in H. exact (H Hp).
Qed.

(** If no part of the text of the lines leaves the count at zero after an
    opening brace, the brace scan passes all the lines. *)
Lemma scan_through_never_zero v ls bc fo out :
  (∀ p q, writelines ls = p +:+ q →
          fo || has_opening p = true → bc + balance p ≠ 0) →
  is_Some (scan_through v ls (ScanState bc fo out)).
Proof.
  revert bc fo. induction ls as [|l ls IH]; intros bc fo H; simpl.
  - by eexists.
  - assert (Hb : snd (for_chars v l (ScanState bc fo out)) = false).
    { apply for_chars_never_zero. intros p q -> Hp.
      apply (H p (q +:+ writelines ls)); [|exact Hp].
      simpl. by rewrite append_assoc'. }
    rewrite (for_chars_through _ _ _ Hb). simpl.
    unfold closed; simpl.
    destruct ((fo || (0 <? occurrences LBRACE l)%nat) && _) eqn:Hc.
    + apply andb_true_iff in Hc as [Hfo Hz]. apply Z.eqb_eq in Hz.
      specialize (H l (writelines ls) eq_refl Hfo). unfold balance in H. lia.
    + apply IH. intros p q Hpq Hp.
      specialize (H (l +:+ p) q).
      unfold balance, has_opening in *. rewrite !occurrences_app in H.
      assert (Hgoal : bc + (Z.of_nat (occurrences LBRACE l + occurrences LBRACE p)
                - Z.of_nat (occurrences RBRACE l + occurrences RBRACE p)) ≠ 0).
      { apply H.
        - simpl. by rewrite Hpq, append_assoc'.
        - destruct fo; [done|]. simpl in *.
          apply orb_true_iff in Hp as [Hp|Hp];
            apply Nat.ltb_lt; apply Nat.ltb_lt in Hp; lia. }
      lia.
Qed.

(** A declaration after which the count never comes back to zero once a
    brace was opened: all the lines from it on are written as they are. *)
Lemma fix_lines_never_rebalanced d rest v :
  match_decl d = Some v →
  (∀ p q, writelines (d :: rest) = p +:+ q →
          has_opening p = true → balance p ≠ 0) →
  fix_lines (d :: rest) = Some (d :: rest).
Proof.
  intros Hm H.
  destruct (scan_through_never_zero v (d :: rest) 0 false []) as [st Hs].
  - intros p q Hpq Hp. rewrite Z.add_0_l. by apply (H p q).
  - by apply (fix_lines_unclosed d rest v st).
Qed.

(** ** Lines of a text *)

Lemma append_nil_r (p : string) : p +:+ EmptyString = p.
Proof.
  induction p as [|a p IH]; [reflexivity|]. by rewrite append_cons, IH.
Qed.

Lemma every_app cls (p q : string) :
  every cls (p +:+ q) = every cls p && every cls q.
Proof.
  induction p as [|a p IH]; [reflexivity|].
  rewrite append_cons. simpl. by rewrite IH, andb_assoc.
Qed.

Lemma writelines_app (a b : list string) :
  writelines (a ++ b) = writelines a +:+ writelines b.
Proof.
  induction a as [|l a IH]; [reflexivity|].
  change (l +:+ writelines (a ++ b) = (l +:+ writelines a) +:+ writelines b).
  by rewrite IH, append_assoc'.
Qed.

Lemma no_newline_cons c s :
  no_newline (String c s) = negb (Ascii.eqb c NL) && no_newline s.
Proof. reflexivity. Qed.

Lemma no_newline_app (p q : string) :
  no_newline (p +:+ q) = no_newline p && no_newline q.
Proof. apply every_app. Qed.

Lemma complete_line_newline l : complete_line l → no_newline l = false.
Proof.
  intros (body & _ & ->). rewrite no_newline_app.
  apply andb_false_iff. right. reflexivity.
Qed.

Lemma word_no_newline v : every is_word v = true → no_newline v = true.
Proof.
  induction v as [|c v IH]; [done|]. simpl. intros H.
  apply andb_true_iff in H as [Hc Hv]. rewrite no_newline_cons, (IH Hv).
  rewrite andb_true_r. apply negb_true_iff.
  destruct (Ascii.eqb c NL) eqn:E; [|done].
  apply Ascii.eqb_eq in E. subst c. discriminate Hc.
Qed.

Lemma word_no_cr v : every is_word v = true → occurrences CR v = 0%nat.
Proof.
  induction v as [|c v IH]; [done|]. simpl. intros H.
  apply andb_true_iff in H as [Hc Hv]. rewrite (IH Hv).
  destruct (Ascii.eqb c CR) eqn:E; [|done].
  apply Ascii.eqb_eq in E. subst c. discriminate Hc.
Qed.

(** Cutting a text into lines and putting the lines together again. *)
Lemma writelines_cut_lines text : writelines (cut_lines text) = text.
Proof.
  induction text as [|c text IH]; [reflexivity|]. simpl.
  destruct (Ascii.eqb c NL); simpl; [by rewrite IH|].
  destruct (cut_lines text) as [|l ls]; simpl in *; by rewrite <- IH.
Qed.

Lemma cut_lines_complete body rest :
  no_newline body = true →
  cut_lines (body +:+ String NL rest)
  = (body +:+ String NL EmptyString) :: cut_lines rest.
Proof.
  induction body as [|c body IH]; intros Hb.
  - rewrite !append_empty_l. simpl. reflexivity.
  - rewrite !append_cons. rewrite no_newline_cons in Hb.
    apply andb_true_iff in Hb as [Hc Hb]. apply negb_true_iff in Hc.
    cbn [cut_lines]. rewrite Hc, (IH Hb). reflexivity.
Qed.

Lemma cut_lines_partial l :
  no_newline l = true → l ≠ EmptyString → cut_lines l = [l].
Proof.
  induction l as [|c l IH]; intros Hl Hne; [done|].
  rewrite no_newline_cons in Hl.
  apply andb_true_iff in Hl as [Hc Hl]. apply negb_true_iff in Hc.
  cbn [cut_lines]. rewrite Hc. destruct l as [|c' l]; [reflexivity|].
  by rewrite IH.
Qed.

Lemma cut_lines_wf text :
  ∃ ls tl, cut_lines text = ls ++ tl ∧ Forall complete_line ls ∧ last_lines tl.
Proof.
  induction text as [|c text (ls & tl & E & Hls & Htl)].
  - exists [], []. repeat split; [constructor | by left].
  - cbn [cut_lines]. destruct (Ascii.eqb c NL) eqn:Hc.
    + apply Ascii.eqb_eq in Hc. subst c.
      exists (String NL EmptyString :: ls), tl. rewrite E.
      split; [done|]. split; [|done]. constructor; [|done].
      by exists EmptyString.
    + rewrite E. destruct ls as [|l ls]; simpl.
      * destruct Htl as [->|(l & -> & Hl & Hne)].
        -- exists [], [String c EmptyString]. split; [done|].
           split; [constructor|]. right. eexists. split; [done|].
           by rewrite no_newline_cons, Hc.
        -- exists [], [String c l]. split; [done|].
           split; [constructor|]. right. eexists. split; [done|].
           by rewrite no_newline_cons, Hc, Hl.
      * exists (String c l :: ls), tl. split; [done|]. split; [|done].
        apply Forall_cons in Hls as [(body & Hb & ->) Hls].
        constructor; [|done]. exists (String c body).
        by rewrite no_newline_cons, Hc, Hb.
Qed.

Lemma cut_lines_writelines ls tl :
  Forall complete_line ls → last_lines tl →
  cut_lines (writelines (ls ++ tl)) = ls ++ tl.
Proof.
  intros Hls Htl. induction Hls as [|l ls (body & Hb & ->) _ IH].
  - destruct Htl as [->|(l & -> & Hl & Hne)]; [reflexivity|].
    simpl. unfold writelines. simpl. rewrite append_nil_r.
    by apply cut_lines_partial.
  - change (cut_lines ((body +:+ String NL EmptyString) +:+ writelines (ls ++ tl))
            = (body +:+ String NL EmptyString) :: ls ++ tl).
    rewrite append_assoc', append_cons, append_empty_l.
    by rewrite (cut_lines_complete _ _ Hb), IH.
Qed.

(** ** The text layer *)

Lemma universal_newlines_id s :
  occurrences CR s = 0%nat → universal_newlines s = s.
Proof.
  induction s as [|c s IH]; [done|]. cbn [occurrences universal_newlines].
  destruct (Ascii.eqb c CR); [discriminate|]. intros H. by rewrite IH.
Qed.

Lemma universal_newlines_no_cr s :
  occurrences CR (universal_newlines s) = 0%nat.
Proof.
  remember (String.length s) as n eqn:Hn. revert s Hn.
  induction n as [n IH] using lt_wf_ind. intros [|c rest] Hn; [done|].
  cbn [universal_newlines String.length] in *.
  destruct (Ascii.eqb c CR) eqn:E.
  - change (occurrences CR (String NL ?x)) with (occurrences CR x).
    destruct rest as [|c' rest']; [done|].
    cbn [String.length] in Hn.
    destruct (Ascii.eqb c' NL).
    + apply (IH (String.length rest')); [lia | done].
    + apply (IH (String.length (String c' rest'))); [simpl; lia | done].
  - cbn [occurrences]. rewrite E.
    apply (IH (String.length rest)); [lia | done].
Qed.

Lemma universal_newlines_fixed s :
  universal_newlines s = s ↔ occurrences CR s = 0%nat.
Proof.
  split; [|apply universal_newlines_id].
  intros H. rewrite <- H. apply universal_newlines_no_cr.
Qed.

(** The lines read, put together, are the text with its line ends turned
    into line feeds. *)
Lemma writelines_readlines text :
  writelines (readlines text) = universal_newlines text.
Proof. apply writelines_cut_lines. Qed.

Lemma readlines_no_cr_text text :
  occurrences CR text = 0%nat → readlines text = cut_lines text.
Proof. intros H. unfold readlines. by rewrite universal_newlines_id. Qed.

Lemma occurrences_writelines c ls :
  occurrences c (writelines ls) = 0%nat ↔ Forall (λ l, occurrences c l = 0%nat) ls.
Proof.
  induction ls as [|l ls IH].
  - split; [constructor | done].
  - change (writelines (l :: ls)) with (l +:+ writelines ls).
    rewrite occurrences_app, Forall_cons, <- IH. lia.
Qed.

Lemma readlines_wf text :
  ∃ ls tl, readlines text = ls ++ tl ∧ Forall complete_line ls ∧ last_lines tl.
Proof. apply cut_lines_wf. Qed.

Lemma readlines_no_cr text :
  Forall (λ l, occurrences CR l = 0%nat) (readlines text).
Proof.
  apply occurrences_writelines. rewrite writelines_readlines.
  apply universal_newlines_no_cr.
Qed.

(** The lines before a last line without newline end with their newline. *)
Lemma readlines_init_complete text pre d :
  readlines text = pre ++ [d] → no_newline d = true →
  Forall complete_line pre.
Proof.
  intros E Hd. destruct (readlines_wf text) as (ls & tl & E' & Hls & Htl).
  rewrite E in E'. destruct Htl as [->|(l & -> & _)].
  - rewrite app_nil_r in E'. subst ls.
    apply Forall_app in Hls as [_ Hd']. apply Forall_cons in Hd' as [Hd' _].
    apply complete_line_newline in Hd'. congruence.
  - apply app_inj_tail in E' as [-> _]. done.
Qed.

Lemma translate_newlines_lf s : translate_newlines lf s = s.
Proof.
  induction s as [|c s IH]; [done|]. cbn [translate_newlines].
  destruct (Ascii.eqb c NL) eqn:E; rewrite IH; [|done].
  apply Ascii.eqb_eq in E. by subst c.
Qed.

Lemma translate_newlines_app sep (p q : string) :
  translate_newlines sep (p +:+ q)
  = translate_newlines sep p +:+ translate_newlines sep q.
Proof.
  induction p as [|c p IH]; [done|]. rewrite append_cons.
  cbn [translate_newlines]. destruct (Ascii.eqb c NL); rewrite IH.
  - by rewrite append_assoc'.
  - by rewrite append_cons.
Qed.

(** What is written with the line separator LF or CRLF is read back with
    line feeds. *)
Lemma universal_translate sep t :
  sep = lf ∨ sep = crlf →
  occurrences CR t = 0%nat →
  universal_newlines (translate_newlines sep t) = t.
Proof.
  intros Hsep. induction t as [|c t IH]; [done|].
  cbn [occurrences translate_newlines].
  destruct (Ascii.eqb c CR) eqn:Ecr; [discriminate|]. intros H.
  destruct (Ascii.eqb c NL) eqn:Enl.
  - apply Ascii.eqb_eq in Enl. subst c.
    destruct Hsep as [-> | ->].
    + change (lf +:+ ?x) with (String NL x). cbn [universal_newlines].
      change (Ascii.eqb NL CR) with false. cbn iota. by rewrite IH.
    + change (crlf +:+ ?x) with (String CR (String NL x)).
      cbn [universal_newlines].
      change (Ascii.eqb CR CR) with true. change (Ascii.eqb NL NL) with true.
      cbn iota. by rewrite IH.
  - cbn [universal_newlines]. rewrite Ecr. by rewrite IH.
Qed.


Lemma write_lines_latin1 ls written :
  write_lines latin1_posix ls written = (written +:+ writelines ls, true).
Proof.
  revert written. induction ls as [|l ls IH]; intros written; simpl.
  - by rewrite append_nil_r.
  - change (String NL EmptyString) with lf. rewrite translate_newlines_lf.
    rewrite IH. by rewrite append_assoc'.
Qed.


(** ** The command line *)

Lemma fix_eventbus_connections_returns filename bytes text out bytes' w :
  files w !! filename = Some bytes →
  refuses w filename "r" = None →
  decode (text_layer w) bytes = Some text →
  fix_lines (readlines text) = Some out →
  refuses w filename "w" = None →
  write_lines (text_layer w) out EmptyString = (bytes', true) →
  fix_eventbus_connections filename w
  = Some (Returned,
          write_file filename bytes'
            (open_ filename "w" (open_ filename "r" w))).
Proof.
  intros Hf Hr Hd Hfix Hw Hwr. unfold fix_eventbus_connections.
  cbn [open_ files refuses text_layer].
  by rewrite Hf, Hr, Hd, Hfix, Hw, Hwr.
Qed.

(** On a system that refuses nothing for the file, with bytes for code
    points and the line feed for line separator, the file holds after the
    run the text of the lines written. *)
Lemma fix_eventbus_connections_latin1 filename text out w :
  text_layer w = latin1_posix →
  refuses w filename "r" = None → refuses w filename "w" = None →
  files w !! filename = Some text →
  fix_lines (readlines text) = Some out →
  fix_eventbus_connections filename w
  = Some (Returned,
          write_file filename (writelines out)
            (open_ filename "w" (open_ filename "r" w))).
Proof.
  intros Hl Hr Hw Hf Hfix.
  apply (fix_eventbus_connections_returns filename text text out); try done.
  - by rewrite Hl.
  - by rewrite Hl, write_lines_latin1.
Qed.

(** Every call ends; it prints nothing, and it leaves the files as they
    were or gives new bytes to the file it was called on. *)
Lemma fix_eventbus_connections_outcome filename w :
  ∃ r w', fix_eventbus_connections filename w = Some (r, w')
          ∧ stdout w' = stdout w
          ∧ (files w' = files w
             ∨ ∃ bytes, is_Some (files w !! filename)
                        ∧ files w' = <[filename := bytes]> (files w)).
Proof.
  unfold fix_eventbus_connections. cbn [open_ files refuses text_layer].
  destruct (files w !! filename) as [bytes|] eqn:Hf;
    [|eexists _, _; split; [reflexivity|]; split; [done | by left]].
  destruct (refuses w filename "r");
    [eexists _, _; split; [reflexivity|]; split; [done | by left]|].
  destruct (decode (text_layer w) bytes) as [text|];
    [|eexists _, _; split; [reflexivity|]; split; [done | by left]].
  destruct (fix_lines_total (readlines text)) as [out ->].
  destruct (refuses w filename "w");
    [eexists _, _; split; [reflexivity|]; split; [done | by left]|].
  destruct (write_lines (text_layer w) out EmptyString) as [bytes' all].
  eexists _, _. split; [reflexivity|]. split; [done|].
  right. exists bytes'. split; [by eexists | done].
Qed.

(** * Properties *)




(** C4. When the outer loop stands on a matching declaration and the brace
    scan passes every line from the declaration line to the end of the file
    without [found_opening and bracket_count == 0] coming true (no closing
    brace returns the count to zero after an opening one, or there is no
    opening brace at all), the loop returns, and what it writes from there
    is the remaining lines as they are: no call is inserted. With no
    matching line before the declaration, the whole file is written back
    unchanged. The premise holds whenever no part of the text from the
    declaration on has a balance of zero after an opening brace
    ([scan_through_never_zero]). *)
Theorem unclosed_scan_copies_rest (pre rest out : list string)
    (d v : string) (st : scan_state) :
  match_decl d = Some v →
  scan_through v (d :: rest) (ScanState 0 false []) = Some st →
  run_outer (pre ++ d :: rest) (length pre) out = Some (out ++ d :: rest)
  ∧ (no_match pre → fix_lines (pre ++ d :: rest) = Some (pre ++ d :: rest)).
Proof.
  intros Hm Hs. pose proof (fix_lines_unclosed _ _ _ _ Hm Hs) as Hfix. split.
  - by rewrite run_outer_app, Hfix.
  - intros Hpre. by rewrite (fix_lines_prefix _ _ Hpre), Hfix.
Qed.

Lemma unclosed_scan_copies_rest_witness :
  let d := ln "r := NewBasicRoom(Config{" in
  let rest := [ln (tab "ID: 1,"); ln "x := NewBasicRoom(Config{})"] in
  match_decl d = Some "r"
  ∧ is_Some (scan_through "r" (d :: rest) (ScanState 0 false []))
  ∧ fix_lines ([ln "package main"] ++ d :: rest)
    = Some ([ln "package main"] ++ d :: rest).
Proof.
  intros d rest.
  assert (H1 : match_decl d = Some "r") by (vm_compute; reflexivity).
  assert (H2 : scan_through "r" (d :: rest) (ScanState 0 false [])
               = Some (ScanState 1 true [])) by (vm_compute; reflexivity).
  split; [exact H1|]. split; [by eexists|].
  apply (unclosed_scan_copies_rest [ln "package main"] rest [] d "r" _ H1 H2).
  repeat constructor.
Defined.



(** C9. When the outer loop stands on a matching declaration and the
    character loop leaves the declaration line itself through [break] (its
    braces open and come back to zero on that line), the declaration line is
    written, then the one line made of a tab, the identifier,
    [.ConnectToEventBus(eventBus)] and a newline, and the loop goes on with
    the very next line. For a file with no other matching line the output is
    the input with that one line put in after the declaration line. *)
Theorem declaration_closed_on_its_line (pre rest out : list string)
    (d v : string) :
  match_decl d = Some v →
  snd (for_chars v d (ScanState 0 false [])) = true →
  run_outer (pre ++ d :: rest) (length pre) out
  = (λ res, out ++ d :: connect_line v :: res) <$> fix_lines rest
  ∧ connect_line v
    = String (ascii_of_nat 9)
        (v +:+ ".ConnectToEventBus(eventBus)"
           +:+ String (ascii_of_nat 10) EmptyString)
  ∧ (no_match pre → no_match rest →
     fix_lines (pre ++ d :: rest) = Some (pre ++ d :: connect_line v :: rest)).
Proof.
  intros Hm Hb.
  pose proof (fix_lines_one_line _ rest _ Hm Hb) as Hfix. split; [|split].
  - rewrite run_outer_app, Hfix. by destruct (fix_lines rest).
  - reflexivity.
  - intros Hpre Hrest.
    by rewrite (fix_lines_prefix _ _ Hpre), Hfix, (fix_lines_no_match _ Hrest).
Qed.

Lemma declaration_closed_on_its_line_witness :
  let d := ln "r := NewBasicRoomOrchestrator(Config{ID: 1})" in
  match_decl d = Some "r"
  ∧ snd (for_chars "r" d (ScanState 0 false [])) = true
  ∧ fix_lines ([ln "package main"] ++ d :: [ln "use(r)"])
    = Some ([ln "package main"] ++ d :: connect_line "r" :: [ln "use(r)"]).
Proof.
  intros d.
  assert (H1 : match_decl d = Some "r") by (vm_compute; reflexivity).
  assert (H2 : snd (for_chars "r" d (ScanState 0 false [])) = true)
    by (vm_compute; reflexivity).
  split; [exact H1|]. split; [exact H2|].
  apply (declaration_closed_on_its_line [ln "package main"] [ln "use(r)"] []
           d "r" H1 H2); repeat constructor.
Defined.

(** C6. The character loop has no notion of string literal or comment.
    After any text [p] it has read through, it stands with the count of the
    opening braces of [p] less the closing ones, and the next brace acts on
    that count alone: an opening brace adds one and sets [found_opening], a
    closing brace takes one off and, if that makes zero after an opening
    brace, writes the call and leaves the loop. The text [p] can be replaced
    by its braces alone without any change to what the loop does. *)
Theorem brace_scan_ignores_context (v p q : string) (st : scan_state) :
  snd (for_chars v p st) = false →
  let bc := bracket_count st + Z.of_nat (occurrences LBRACE p)
            - Z.of_nat (occurrences RBRACE p) in
  let fo := found_opening st || (0 <? occurrences LBRACE p)%nat in
  for_chars v (p +:+ String LBRACE q) st
  = for_chars v q (ScanState (bc + 1) true (output_lines st))
  ∧ for_chars v (p +:+ String RBRACE q) st
    = (if fo && (bc - 1 =? 0)
       then (ScanState (bc - 1) fo (output_lines st ++ [connect_line v]), true)
       else for_chars v q (ScanState (bc - 1) fo (output_lines st)))
  ∧ for_chars v (p +:+ q) st = for_chars v (only_braces p +:+ q) st.
Proof.
  intros Hp bc fo.
  pose proof (for_chars_through _ _ _ Hp) as Hst. fold bc fo in Hst.
  split; [|split].
  - rewrite (for_chars_app _ _ _ _ Hp), Hst. reflexivity.
  - rewrite (for_chars_app _ _ _ _ Hp), Hst. reflexivity.
  - rewrite (for_chars_app _ _ _ _ Hp).
    rewrite <- (for_chars_only_braces v p st) in Hp |- *.
    by rewrite (for_chars_app _ _ _ _ Hp).
Qed.

(** The closing brace of a string literal ends the scan of the line. *)
Lemma brace_scan_ignores_context_witness :
  let p := "r := NewBasicRoom(Config{Name: " +:+ String QUOTE EmptyString in
  let q := String QUOTE (ln ",") in
  snd (for_chars "r" p (ScanState 0 false [])) = false
  ∧ for_chars "r" (p +:+ String RBRACE q) (ScanState 0 false [])
    = (ScanState 0 true [connect_line "r"], true).
Proof.
  intros p q.
  assert (H : snd (for_chars "r" p (ScanState 0 false [])) = false)
    by (vm_compute; reflexivity).
  split; [exact H|].
  exact (proj1 (proj2
    (brace_scan_ignores_context "r" p q (ScanState 0 false []) H))).
Defined.




(** ** Running the rewriter on its own output *)

(** C5. The rewriter is not idempotent. On the one-line file
    [r := NewBasicRoom(Config{})] it puts the call in after the declaration;
    run on that output, it matches the declaration again and puts in a
    second, equal call. The same is seen on the file system: the file left
    by the second run differs from the file left by the first. *)
Theorem rewrite_not_idempotent :
  let d := ln "r := NewBasicRoom(Config{})" in
  let call := connect_line "r" in
  fix_lines [d] = Some [d; call]
  ∧ fix_lines [d; call] = Some [d; call; call]
  ∧ [d; call] ≠ [d; call; call]
  ∧ ∃ w1 w2,
      fix_eventbus_connections "room.go" room_world = Some (Returned, w1)
      ∧ fix_eventbus_connections "room.go" w1 = Some (Returned, w2)
      ∧ files w1 !! "room.go" = Some (writelines [d; call])
      ∧ files w2 !! "room.go" = Some (writelines [d; call; call])
      ∧ files w1 ≠ files w2.
Proof.
  intros d call.
  assert (H1 : fix_lines [d] = Some [d; call]) by (vm_compute; reflexivity).
  assert (H2 : fix_lines [d; call] = Some [d; call; call])
    by (vm_compute; reflexivity).
  split; [exact H1|]. split; [exact H2|]. split; [discriminate|].
  assert (Hf : files room_world !! "room.go" = Some room_text)
    by apply lookup_singleton_eq.
  pose proof (fix_eventbus_connections_latin1 "room.go" room_text [d; call]
                room_world eq_refl eq_refl eq_refl Hf H1) as R1.
  set (w1 := write_file "room.go" (writelines [d; call])
               (open_ "room.go" "w" (open_ "room.go" "r" room_world))) in R1.
  assert (Hf1 : files w1 !! "room.go" = Some (writelines [d; call]))
    by apply lookup_insert_eq.
  pose proof (fix_eventbus_connections_latin1 "room.go" (writelines [d; call])
                [d; call; call] w1 eq_refl eq_refl eq_refl Hf1 H2) as R2.
  set (w2 := write_file "room.go" (writelines [d; call; call])
               (open_ "room.go" "w" (open_ "room.go" "r" w1))) in R2.
  assert (Hf2 : files w2 !! "room.go" = Some (writelines [d; call; call]))
    by apply lookup_insert_eq.
  exists w1, w2. repeat split; try assumption.
  intros E. rewrite E, Hf2 in Hf1. discriminate.
Qed.

(** ** The line on which the scan stops *)

(** C1, on the example of the specification: a declaration line
    [r := NewBasicRoom(], a block, a lone closing brace, and the closing
    parenthesis. The call is written, but in the place of the line of the
    closing brace, which is not written: the output is not the input with
    one line put in. *)
Theorem spec_example_loses_closing_brace :
  let input := [ln "r := NewBasicRoom("; ln (tab "Config{"); ln (tab "}");
                ln ")"] in
  fix_lines input
  = Some [ln "r := NewBasicRoom("; ln (tab "Config{"); connect_line "r";
          ln ")"]
  ∧ fix_lines input
    ≠ Some [ln "r := NewBasicRoom("; ln (tab "Config{"); ln (tab "}");
            connect_line "r"; ln ")"].
Proof.
  intros input.
  assert (H : fix_lines input
              = Some [ln "r := NewBasicRoom("; ln (tab "Config{");
                      connect_line "r"; ln ")"]) by (vm_compute; reflexivity).
  split; [exact H|]. rewrite H. discriminate.
Qed.

(** C2, on a declaration as the tool is meant for: the line [})] that closes
    the block is a line of the input and not a line of the output, so the
    input is not a subsequence of the output. *)
Theorem closing_line_not_in_output :
  let input := [ln "room := spatial.NewBasicRoomOrchestrator(spatial.Config{";
                ln (tab "ID: 1,"); ln "})"] in
  let output := [ln "room := spatial.NewBasicRoomOrchestrator(spatial.Config{";
                 ln (tab "ID: 1,"); connect_line "room"] in
  fix_lines input = Some output
  ∧ (ln "})" ∈ input)
  ∧ (ln "})" ∉ output)
  ∧ ¬ (input `sublist_of` output).
Proof.
  intros input output.
  assert (Hout : ln "})" ∉ output).
  { unfold output. rewrite !elem_of_cons, elem_of_nil.
    intros [H|[H|[H|[]]]]; discriminate H. }
  assert (Hin : ln "})" ∈ input).
  { unfold input. rewrite !elem_of_cons. auto. }
  split; [vm_compute; reflexivity|]. split; [exact Hin|]. split; [exact Hout|].
  intros Hsub. exact (Hout (elem_of_sublist _ _ _ Hin Hsub)).
Qed.

(** C10, on a declaration [b] that stands on the line whose brace closes
    the block of [a]: it does not start a scan of its own, and it is not
    written either. *)
Theorem declaration_on_closing_line_not_copied :
  let a := ln "a := NewBasicRoom(Config{" in
  let b := ln "b := NewBasicRoom(Config{})})" in
  match_decl b = Some "b"
  ∧ fix_lines [a; b; ln "use(a, b)"]
    = Some [a; connect_line "a"; ln "use(a, b)"]
  ∧ (b ∉ [a; connect_line "a"; ln "use(a, b)"]).
Proof.
  intros a b. split; [vm_compute; reflexivity|].
  split; [vm_compute; reflexivity|].
  rewrite !elem_of_cons, elem_of_nil.
  intros [H|[H|[H|[]]]]; discriminate H.
Qed.

(** * Further properties *)

(** ** The command line and the file system *)


(** X2. Given the name of a file that is not there, the program tries to
    open it for reading and ends with status 1: nothing is printed on
    standard output, no file is opened for writing and no file changes. *)
Theorem missing_file_changes_nothing (prog filename : string) (w : world) :
  files w !! filename = None →
  ∃ w', fix_eventbus_connections filename w
        = Some (Raised (FileNotFoundError filename), w')
        ∧ main [prog; filename] w = Some (1, w')
        ∧ files w' = files w
        ∧ stdout w' = stdout w
        ∧ opened w' = opened w ++ [(filename, "r")].
Proof.
  intros Hf. eexists. split.
  - unfold fix_eventbus_connections. cbn [open_ files]. rewrite Hf. reflexivity.
  - split; [|by repeat split].
    unfold main, fix_eventbus_connections. cbn [open_ files length Nat.eqb negb].
    cbn [lookup list_lookup]. by rewrite Hf.
Qed.

Lemma missing_file_changes_nothing_witness :
  files room_world !! "hall.go" = None
  ∧ ∃ w', fix_eventbus_connections "hall.go" room_world
          = Some (Raised (FileNotFoundError "hall.go"), w')
          ∧ main ["add-connect-calls.py"; "hall.go"] room_world = Some (1, w')
          ∧ files w' = files room_world
          ∧ stdout w' = stdout room_world
          ∧ opened w' = opened room_world ++ [("hall.go", "r")].
Proof.
  assert (H : files room_world !! "hall.go" = None)
    by (apply lookup_singleton_ne; discriminate).
  split; [exact H|].
  exact (missing_file_changes_nothing "add-connect-calls.py" "hall.go"
           room_world H).
Defined.

(** X3. Whatever the arguments, the program ends and leaves every file
    other than the one named by its first argument as it was; it neither
    makes nor removes a file, and it prints at most one line. *)
Theorem main_frame (argv : list string) (w : world) :
  ∃ code w',
    main argv w = Some (code, w')
    ∧ (∀ path, argv !! 1%nat ≠ Some path → files w' !! path = files w !! path)
    ∧ dom (files w') = dom (files w)
    ∧ ∃ printed, stdout w' = stdout w ++ printed ∧ (length printed ≤ 1)%nat.
Proof.
  unfold main. destruct (length argv =? 2)%nat eqn:Hlen; simpl.
  - apply Nat.eqb_eq in Hlen.
    destruct argv as [|prog [|filename [|]]]; try discriminate Hlen. simpl.
    destruct (fix_eventbus_connections_outcome filename w)
      as (r & w1 & -> & Hout & Hfiles).
    assert (Hframe : (∀ path, Some filename ≠ Some path →
                        files w1 !! path = files w !! path)
                     ∧ dom (files w1) = dom (files w)).
    { destruct Hfiles as [-> | (bytes & Hsome & ->)]; [done|]. split.
      - intros path Hp. apply lookup_insert_ne. congruence.
      - rewrite dom_insert_L.
        assert (Hin : filename ∈ dom (files w)) by (by apply elem_of_dom).
        apply set_eq. intros x. rewrite elem_of_union, elem_of_singleton.
        split; [intros [->|?]; done | by right]. }
    destruct Hframe as [Hother Hdom].
    destruct r.
    + eexists 0, _. split; [reflexivity|]. simpl.
      split; [done|]. split; [done|].
      eexists [_]. rewrite Hout. split; [reflexivity | simpl; lia].
    + eexists 1, _. split; [reflexivity|].
      split; [done|]. split; [done|].
      exists []. rewrite Hout. split; [by rewrite app_nil_r | simpl; lia].
  - eexists 1, _. split; [reflexivity|]. simpl. split; [done|]. split; [done|].
    eexists [_]. split; [reflexivity | simpl; lia].
Qed.

(** X20. Given the name of a file that is there but that [open] refuses
    for reading (a directory, a missing permission), or that the codec
    does not decode, or that [open] refuses for writing, the program ends
    with status 1: nothing is printed and no file changes. *)
Theorem refused_file_changes_nothing (prog filename bytes : string)
    (w : world) :
  files w !! filename = Some bytes →
  is_Some (refuses w filename "r")
  ∨ decode (text_layer w) bytes = None
  ∨ is_Some (refuses w filename "w") →
  ∃ w', main [prog; filename] w = Some (1, w')
        ∧ files w' = files w
        ∧ stdout w' = stdout w.
Proof.
  intros Hf Hbad. unfold main. cbn [length Nat.eqb negb lookup list_lookup].
  unfold fix_eventbus_connections. cbn [open_ files refuses text_layer].
  rewrite Hf.
  destruct (refuses w filename "r") as [e|] eqn:Hr;
    [eexists; split; [reflexivity | by split]|].
  destruct (decode (text_layer w) bytes) as [text|] eqn:Hd;
    [|eexists; split; [reflexivity | by split]].
  destruct (fix_lines_total (readlines text)) as [out ->].
  destruct (refuses w filename "w") as [e|] eqn:Hw;
    [eexists; split; [reflexivity | by split]|].
  destruct Hbad as [[? [=]] | [[=] | [? [=]]]].
Qed.

Lemma refused_file_changes_nothing_witness :
  files locked_world !! "room.go" = Some room_text
  ∧ is_Some (refuses locked_world "room.go" "w")
  ∧ ∃ w', main ["add-connect-calls.py"; "room.go"] locked_world = Some (1, w')
          ∧ files w' = files locked_world
          ∧ stdout w' = stdout locked_world.
Proof.
  assert (H1 : files locked_world !! "room.go" = Some room_text)
    by apply lookup_singleton_eq.
  assert (H2 : is_Some (refuses locked_world "room.go" "w")) by (by eexists).
  split; [exact H1|]. split; [exact H2|].
  apply (refused_file_changes_nothing "add-connect-calls.py" "room.go"
           room_text locked_world H1).
  right. right. exact H2.
Defined.

(** ** What a run may do to the lines *)

(** A line without a brace leaves the scan state as it is. *)
Lemma for_chars_no_brace v line st :
  has_brace line = false → for_chars v line st = (st, false).
Proof.
  unfold has_brace. revert st.
  induction line as [|c line IH]; intros st H; simpl in *; [done|].
  brace_cases c; simpl in H.
  - apply Nat.ltb_ge in H. lia.
  - apply Nat.ltb_ge in H. lia.
  - by apply IH.
Qed.

Lemma patched_app_keep src pre ls out :
  patched src ls out → patched src (pre ++ ls) (pre ++ out).
Proof. intros H. induction pre; simpl; [done|]. by constructor. Qed.

(** The lines the inner loop writes, with the lines the outer loop writes
    for what is left, are a patch of the lines the inner loop was given,
    the first one apart when the outer loop has written it. *)
Lemma scan_lines_patched src d v first ls st :
  d ∈ src → match_decl d = Some v → closed st = false →
  ∃ X, output_lines (snd (scan_lines v first ls st)) = output_lines st ++ X
       ∧ ∀ res, patched src (drop (S (fst (scan_lines v first ls st))) ls) res →
                patched src (if first then tail ls else ls) (X ++ res).
Proof.
  intros Hd Hm. revert first st.
  induction ls as [|l ls IH]; intros first st Hst; simpl.
  - exists []. split; [by rewrite app_nil_r|]. intros res H. by destruct first.
  - destruct (closed (for_chars v l st).1) eqn:Hc; simpl.
    + assert (Hb : has_brace l = true).
      { destruct (has_brace l) eqn:Hb; [done|].
        rewrite (for_chars_no_brace _ _ _ Hb) in Hc. simpl in Hc. congruence. }
      destruct (snd (for_chars v l st)) eqn:Hbr.
      * apply for_chars_broke in Hbr as [_ Ho].
        exists [connect_line v]. split; [done|]. intros res H. simpl.
        apply (patched_call src d v); [done..|].
        destruct first; [done|]. by constructor.
      * apply for_chars_no_break in Hbr.
        exists []. split; [by rewrite app_nil_r|]. intros res H. simpl.
        destruct first; [done|]. by constructor.
    + pose proof (for_chars_open _ _ _ Hc) as Ho.
      destruct first.
      * destruct (IH false _ Hc) as (X & HX & HP).
        exists X. split; [by rewrite HX, Ho|]. exact HP.
      * destruct (IH false (ScanState (bracket_count (for_chars v l st).1)
                     (found_opening (for_chars v l st).1)
                     (output_lines (for_chars v l st).1 ++ [l])) Hc)
          as (X & HX & HP).
        exists (l :: X). split.
        -- rewrite HX. simpl. by rewrite Ho, <- app_assoc.
        -- intros res H. simpl. constructor. by apply HP.
Qed.

Lemma rewrites_patched src ls out :
  ls ⊆ src → rewrites ls out → patched src ls out.
Proof.
  intros Hsub H. induction H as [|line ls res Hm H IH|line ls v k st res Hm Hs H IH].
  - constructor.
  - constructor. apply IH. set_solver.
  - destruct (scan_lines_patched src line v true (line :: ls)
                (ScanState 0 false [])) as (X & HX & HP);
      [set_solver | done | done |].
    rewrite Hs in HX, HP. simpl in HX, HP. rewrite HX.
    constructor. apply HP. apply IH.
    intros x Hx. apply Hsub. right. by apply (subseteq_drop k ls).
Qed.

(** X4. A run only leaves lines out and puts calls in. The output is the
    input with some lines that have a brace left out and with calls put in,
    each on the identifier of a matching line of the input; every line
    kept is kept as it is and in its place among the others. *)
Theorem output_is_patched_input (lines : list string) :
  ∃ out, fix_lines lines = Some out ∧ patched lines lines out.
Proof.
  destruct (rewrites_total lines) as [out Hout]. exists out.
  split; [by apply fix_lines_rewrites|]. by apply rewrites_patched.
Qed.

Lemma patched_brace_free src ls out :
  patched src ls out →
  filter (λ line, has_brace line = false) ls `sublist_of` out.
Proof.
  induction 1 as [|line ls out H IH|line ls out Hb H IH|d v ls out Hd Hm H IH].
  - constructor.
  - rewrite filter_cons. destruct (decide (has_brace line = false)).
    + by constructor.
    + by apply sublist_cons.
  - rewrite filter_cons_False; [done|]. congruence.
  - by apply sublist_cons.
Qed.

(** X5. No line without a brace is ever lost: the lines of the input that
    have no brace are a subsequence of the output. *)
Theorem brace_free_lines_kept (lines : list string) :
  ∃ out, fix_lines lines = Some out
         ∧ filter (λ line, has_brace line = false) lines `sublist_of` out.
Proof.
  destruct (rewrites_total lines) as [out Hout]. exists out.
  split; [by apply fix_lines_rewrites|].
  apply (patched_brace_free lines). by apply rewrites_patched.
Qed.

(** Every line of the output is a line of the input or a call on the
    identifier of a matching line of the input. *)
Lemma patched_elem src ls out x :
  patched src ls out → x ∈ out →
  x ∈ ls ∨ ∃ d v, d ∈ src ∧ match_decl d = Some v ∧ x = connect_line v.
Proof.
  induction 1 as [|line ls out H IH|line ls out Hb H IH|d v ls out Hd Hm H IH];
    intros Hx.
  - by apply elem_of_nil in Hx.
  - apply elem_of_cons in Hx as [->|Hx]; [left; by left|].
    destruct (IH Hx) as [?|?]; [left; by right | by right].
  - destruct (IH Hx) as [?|?]; [left; by right | by right].
  - apply elem_of_cons in Hx as [->|Hx]; [right; by exists d, v|]. by apply IH.
Qed.

(** X6. The program writes no text of its own but the call: every line of
    the output is a line of the input, or the call on an identifier that
    [re.match] took from a line of the input. *)
Theorem output_lines_come_from_input (lines : list string) :
  ∃ out, fix_lines lines = Some out
         ∧ ∀ x, x ∈ out →
                x ∈ lines
                ∨ ∃ d v, d ∈ lines ∧ match_decl d = Some v
                         ∧ x = connect_line v.
Proof.
  destruct (rewrites_total lines) as [out Hout]. exists out.
  split; [by apply fix_lines_rewrites|]. intros x Hx.
  apply (patched_elem lines lines out); [by apply rewrites_patched | done].
Qed.

(** The inner loop writes about as many lines as it takes: at most one
    line is lost, and at most one comes in. *)
Lemma scan_lines_length v first ls st :
  let r := scan_lines v first ls st in
  let rem := length (drop (S (fst r)) ls) in
  (length (output_lines (snd r)) + rem ≤ length (output_lines st) + length ls
   ∧ length (output_lines st) + length ls
     ≤ length (output_lines (snd r)) + rem + 1 + (if first then 1 else 0))%nat.
Proof.
  revert first st. induction ls as [|l ls IH]; intros first st; simpl.
  - destruct first; lia.
  - destruct (closed (for_chars v l st).1) eqn:Hc; simpl.
    + rewrite drop_0.
      destruct (snd (for_chars v l st)) eqn:Hbr.
      * apply for_chars_broke in Hbr as [_ Ho]. rewrite Ho, length_app. simpl.
        destruct first; lia.
      * apply for_chars_no_break in Hbr. rewrite Hbr. destruct first; lia.
    + pose proof (for_chars_open _ _ _ Hc) as Ho.
      destruct first.
      * specialize (IH false (for_chars v l st).1). simpl in IH.
        rewrite Ho in IH. lia.
      * specialize (IH false (ScanState (bracket_count (for_chars v l st).1)
                     (found_opening (for_chars v l st).1)
                     (output_lines (for_chars v l st).1 ++ [l]))).
        simpl in IH. rewrite length_app in IH. rewrite Ho in *. simpl in IH. lia.
Qed.

Lemma count_matches_drop k ls :
  (count_matches (drop k ls) ≤ count_matches ls)%nat.
Proof.
  unfold count_matches. rewrite <- (take_drop k ls) at 2.
  rewrite filter_app, length_app. lia.
Qed.

Lemma rewrites_length ls out :
  rewrites ls out →
  (length out ≤ length ls + count_matches ls
   ∧ length ls ≤ length out + count_matches ls)%nat.
Proof.
  induction 1 as [|line ls res Hm H IH|line ls v k st res Hm Hs H IH].
  - simpl. lia.
  - unfold count_matches in *. rewrite filter_cons_False; [simpl; lia|].
    unfold matches. rewrite Hm. discriminate.
  - pose proof (scan_lines_length v true (line :: ls) (ScanState 0 false []))
      as Hlen.
    rewrite Hs in Hlen. simpl in Hlen.
    pose proof (count_matches_drop k ls) as Hk.
    unfold count_matches in *. rewrite filter_cons_True.
    + simpl. rewrite length_app. lia.
    + unfold matches. by rewrite Hm.
Qed.

(** X7. A run changes the number of lines by at most the number of matching
    lines: each scan puts in at most one call and loses at most one line. *)
Theorem output_length_bounds (lines : list string) :
  ∃ out, fix_lines lines = Some out
         ∧ (length out ≤ length lines + count_matches lines)%nat
         ∧ (length lines ≤ length out + count_matches lines)%nat.
Proof.
  destruct (rewrites_total lines) as [out Hout]. exists out.
  split; [by apply fix_lines_rewrites|]. by apply rewrites_length.
Qed.

(** ** A scan that stops without [break] *)

Lemma fix_lines_stop_at_declaration d rest v :
  match_decl d = Some v →
  snd (for_chars v d (ScanState 0 false [])) = false →
  closed (fst (for_chars v d (ScanState 0 false []))) = true →
  fix_lines (d :: rest) = (λ res, d :: res) <$> fix_lines rest.
Proof.
  intros Hm Hb Hc. rewrite (fix_lines_scan _ _ _ Hm). simpl.
  rewrite Hc. simpl. by rewrite (for_chars_no_break _ _ _ Hb).
Qed.

Lemma fix_lines_stop_later d body c rest v st :
  match_decl d = Some v →
  scan_through v (d :: body) (ScanState 0 false []) = Some st →
  snd (for_chars v c st) = false →
  closed (fst (for_chars v c st)) = true →
  fix_lines (d :: body ++ c :: rest)
  = (λ res, d :: body ++ res) <$> fix_lines rest.
Proof.
  intros Hm Hs Hb Hc. rewrite (fix_lines_scan _ _ _ Hm).
  change (d :: body ++ c :: rest) with ((d :: body) ++ c :: rest).
  rewrite (scan_lines_through _ _ _ _ _ _ Hs).
  cbn [tail bracket_count found_opening output_lines andb app].
  rewrite <- (for_chars_snd_out v c st body) in Hb.
  assert (Hc' : closed (for_chars v c (with_out st body)).1 = true).
  { destruct st as [bc fo o]. unfold with_out in *. simpl in *.
    rewrite (for_chars_out v c bc fo body).
    rewrite (for_chars_out v c bc fo o) in Hc. exact Hc. }
  cbn [scan_lines]. rewrite Hc'. cbn [fst snd length].
  rewrite (for_chars_no_break _ _ _ Hb). cbn [with_out output_lines].
  replace (drop (S (length body) + 0) (body ++ c :: rest)) with rest; [done|].
  rewrite Nat.add_0_r. change (S (length body)) with (1 + length body)%nat.
  rewrite Nat.add_comm, <- drop_drop, drop_app_length. reflexivity.
Qed.

(** X8. The test of line 41 can end the scan where line 36 did not: when
    the declaration line is read to its end and leaves the count at zero
    with a brace opened (a closing brace came before the opening one), no
    call is written for the declaration, and the outer loop goes on with
    the next line. *)
Theorem stop_at_declaration_without_call (pre rest out : list string)
    (d v : string) :
  match_decl d = Some v →
  snd (for_chars v d (ScanState 0 false [])) = false →
  closed (fst (for_chars v d (ScanState 0 false []))) = true →
  run_outer (pre ++ d :: rest) (length pre) out
  = (λ res, out ++ d :: res) <$> fix_lines rest
  ∧ (no_match pre → no_match rest →
     fix_lines (pre ++ d :: rest) = Some (pre ++ d :: rest)).
Proof.
  intros Hm Hb Hc.
  pose proof (fix_lines_stop_at_declaration _ rest _ Hm Hb Hc) as Hfix. split.
  - rewrite run_outer_app, Hfix. by destruct (fix_lines rest).
  - intros Hpre Hrest.
    by rewrite (fix_lines_prefix _ _ Hpre), Hfix, (fix_lines_no_match _ Hrest).
Qed.

Lemma stop_at_declaration_without_call_witness :
  let d := ln "r := NewBasicRoom(}, Config{" in
  match_decl d = Some "r"
  ∧ snd (for_chars "r" d (ScanState 0 false [])) = false
  ∧ closed (fst (for_chars "r" d (ScanState 0 false []))) = true
  ∧ fix_lines ([ln "package main"] ++ d :: [ln "})"])
    = Some ([ln "package main"] ++ d :: [ln "})"]).
Proof.
  intros d.
  assert (H1 : match_decl d = Some "r") by (vm_compute; reflexivity).
  assert (H2 : snd (for_chars "r" d (ScanState 0 false [])) = false)
    by (vm_compute; reflexivity).
  assert (H3 : closed (fst (for_chars "r" d (ScanState 0 false []))) = true)
    by (vm_compute; reflexivity).
  split; [exact H1|]. split; [exact H2|]. split; [exact H3|].
  apply (stop_at_declaration_without_call [ln "package main"] [ln "})"] []
           d "r" H1 H2 H3); repeat constructor.
Defined.

(** X9. When the brace scan passes the declaration line and the lines
    [body], and the next line [c] is read to its end and leaves the count
    at zero with a brace opened, the line [c] is lost and no call is
    written in its place: the output has one line less. *)
Theorem stop_later_loses_line (pre body rest out : list string)
    (d c v : string) (st : scan_state) :
  match_decl d = Some v →
  scan_through v (d :: body) (ScanState 0 false []) = Some st →
  snd (for_chars v c st) = false →
  closed (fst (for_chars v c st)) = true →
  run_outer (pre ++ d :: body ++ c :: rest) (length pre) out
  = (λ res, out ++ d :: body ++ res) <$> fix_lines rest
  ∧ (no_match pre → no_match rest →
     fix_lines (pre ++ d :: body ++ c :: rest)
     = Some (pre ++ d :: body ++ rest)).
Proof.
  intros Hm Hs Hb Hc.
  pose proof (fix_lines_stop_later _ _ _ rest _ _ Hm Hs Hb Hc) as Hfix. split.
  - rewrite run_outer_app, Hfix. by destruct (fix_lines rest).
  - intros Hpre Hrest.
    by rewrite (fix_lines_prefix _ _ Hpre), Hfix, (fix_lines_no_match _ Hrest).
Qed.

Lemma stop_later_loses_line_witness :
  let d := ln "r := NewBasicRoom(" in
  let body := [ln (tab "a,")] in
  let c := ln "}, Config{" in
  match_decl d = Some "r"
  ∧ scan_through "r" (d :: body) (ScanState 0 false [])
    = Some (ScanState 0 false [])
  ∧ snd (for_chars "r" c (ScanState 0 false [])) = false
  ∧ closed (fst (for_chars "r" c (ScanState 0 false []))) = true
  ∧ fix_lines ([ln "package main"] ++ d :: body ++ c :: [ln "})"])
    = Some ([ln "package main"] ++ d :: body ++ [ln "})"]).
Proof.
  intros d body c.
  assert (H1 : match_decl d = Some "r") by (vm_compute; reflexivity).
  assert (H2 : scan_through "r" (d :: body) (ScanState 0 false [])
               = Some (ScanState 0 false [])) by (vm_compute; reflexivity).
  assert (H3 : snd (for_chars "r" c (ScanState 0 false [])) = false)
    by (vm_compute; reflexivity).
  assert (H4 : closed (fst (for_chars "r" c (ScanState 0 false []))) = true)
    by (vm_compute; reflexivity).
  split; [exact H1|]. split; [exact H2|]. split; [exact H3|]. split; [exact H4|].
  apply (stop_later_loses_line [ln "package main"] body [ln "})"] []
           d c "r" _ H1 H2 H3 H4); repeat constructor.
Defined.

(** ** The pattern and the call *)

(** X10. [re.match] succeeds on a line, with the identifier [v] as group 1,
    exactly when the line is white space, [v] made of one or more word
    characters, white space, [:=], white space, an optional [spatial.],
    [New], [BasicRoom] or [BasicRoomOrchestrator], and an opening
    parenthesis, followed by any text; it fails exactly when the line has
    this shape for no identifier. *)
Theorem declaration_pattern_characterised (line : string) :
  (∀ v, match_decl line = Some v ↔ declaration_shape line v)
  ∧ (match_decl line = None ↔ ∀ v, ¬ declaration_shape line v).
Proof.
  split; [intros v; apply match_decl_shape | apply match_decl_None].
Qed.

Lemma match_decl_word d v : match_decl d = Some v → every is_word v = true.
Proof.
  intros Hm. apply match_decl_shape in Hm.
  by destruct Hm as (? & ? & ? & ? & ? & ? & _ & _ & Hv & _).
Qed.

(** The call on an identifier of word characters does not match the
    pattern: after the identifier comes a dot. *)
Lemma connect_line_no_match v :
  every is_word v = true → match_decl (connect_line v) = None.
Proof.
  intros Hv. apply match_decl_None.
  intros v' (ws1 & ws2 & ws3 & q & n & t & E & H1 & Hv' & Hne & H2 & _).
  unfold connect_line in E.
  change (String TAB (v +:+ ".ConnectToEventBus(eventBus)"
                        +:+ String NL EmptyString))
    with (String TAB EmptyString
            +:+ v +:+ ".ConnectToEventBus(eventBus)" +:+ String NL EmptyString)
    in E.
  apply run_unique with (cls := is_space) in E as [_ E];
    [|done|done| |by apply stops_space_word].
  - apply run_unique with (cls := is_word) in E as [_ E];
      [|done|done|done|by apply stops_word_assign].
    destruct ws2 as [|c ws2]; [discriminate E|].
    rewrite append_cons in E. injection E as <- _. discriminate H2.
  - destruct v as [|c v]; [done|]. simpl in Hv.
    apply andb_true_iff in Hv as [Hc _]. rewrite append_cons. simpl.
    by apply word_not_space.
Qed.

(** X11. A call the program writes is never taken for a declaration: for
    the identifier [v] of a matching line, the line
    [<tab>v.ConnectToEventBus(eventBus)] does not match the pattern. *)
Theorem inserted_call_is_no_declaration (d v : string) :
  match_decl d = Some v → match_decl (connect_line v) = None.
Proof.
  intros Hm. apply connect_line_no_match. by apply (match_decl_word d).
Qed.

Lemma inserted_call_is_no_declaration_witness :
  match_decl (ln "room := spatial.NewBasicRoom(cfg)") = Some "room"
  ∧ match_decl (connect_line "room") = None.
Proof.
  assert (H : match_decl (ln "room := spatial.NewBasicRoom(cfg)") = Some "room")
    by (vm_compute; reflexivity).
  split; [exact H|].
  exact (inserted_call_is_no_declaration _ _ H).
Defined.

(** X12. The pattern is tried at the start of the line only: a line whose
    first character after the leading white space is no word character (a
    line that begins with [//], say) matches no declaration, whatever
    follows. *)
Theorem line_must_begin_with_identifier (ws rest : string) (c : ascii) :
  every is_space ws = true →
  is_space c = false → is_word c = false →
  match_decl (ws +:+ String c rest) = None.
Proof.
  intros Hws Hs Hw. apply match_decl_None.
  intros v (ws1 & ws2 & ws3 & q & n & t & E & H1 & Hv & Hne & _).
  apply run_unique with (cls := is_space) in E as [_ E];
    [|done|done|done|by apply stops_space_word].
  destruct v as [|c' v]; [done|]. rewrite append_cons in E.
  injection E as -> _. simpl in Hv. by rewrite Hw in Hv.
Qed.

Lemma line_must_begin_with_identifier_witness :
  every is_space "  " = true
  ∧ is_space "/" = false ∧ is_word "/" = false
  ∧ match_decl ("  " +:+ String "/" "/ r := NewBasicRoom(Config{") = None.
Proof.
  assert (H1 : every is_space "  " = true) by reflexivity.
  assert (H2 : is_space "/" = false) by reflexivity.
  assert (H3 : is_word "/" = false) by reflexivity.
  split; [exact H1|]. split; [exact H2|]. split; [exact H3|].
  exact (line_must_begin_with_identifier "  " "/ r := NewBasicRoom(Config{"
           "/" H1 H2 H3).
Defined.

(** ** A second run *)

(** X13. Running the rewriter again doubles the call of every declaration
    that closes on its own line: for a file whose only matching line is
    such a declaration, the first run puts the call in after it, and the
    second run, which finds the call already there, puts in a second one. *)
Theorem second_run_doubles_call (pre rest : list string) (d v : string) :
  no_match pre → no_match rest →
  match_decl d = Some v →
  snd (for_chars v d (ScanState 0 false [])) = true →
  fix_lines (pre ++ d :: rest) = Some (pre ++ d :: connect_line v :: rest)
  ∧ fix_lines (pre ++ d :: connect_line v :: rest)
    = Some (pre ++ d :: connect_line v :: connect_line v :: rest).
Proof.
  intros Hpre Hrest Hm Hb.
  assert (Hcall : no_match (connect_line v :: rest)).
  { constructor; [|done]. apply connect_line_no_match.
    by apply (match_decl_word d). }
  split.
  - by rewrite (fix_lines_prefix _ _ Hpre), (fix_lines_one_line _ _ _ Hm Hb),
      (fix_lines_no_match _ Hrest).
  - by rewrite (fix_lines_prefix _ _ Hpre), (fix_lines_one_line _ _ _ Hm Hb),
      (fix_lines_no_match _ Hcall).
Qed.

Lemma second_run_doubles_call_witness :
  let d := ln "hall := spatial.NewBasicRoomOrchestrator(Config{ID: 2})" in
  let pre := [ln "package main"] in
  let rest := [ln "use(hall)"] in
  no_match pre ∧ no_match rest
  ∧ match_decl d = Some "hall"
  ∧ snd (for_chars "hall" d (ScanState 0 false [])) = true
  ∧ fix_lines (pre ++ d :: rest) = Some (pre ++ d :: connect_line "hall" :: rest)
  ∧ fix_lines (pre ++ d :: connect_line "hall" :: rest)
    = Some (pre ++ d :: connect_line "hall" :: connect_line "hall" :: rest).
Proof.
  intros d pre rest.
  assert (H1 : no_match pre) by (repeat constructor).
  assert (H2 : no_match rest) by (repeat constructor).
  assert (H3 : match_decl d = Some "hall") by (vm_compute; reflexivity).
  assert (H4 : snd (for_chars "hall" d (ScanState 0 false [])) = true)
    by (vm_compute; reflexivity).
  split; [exact H1|]. split; [exact H2|]. split; [exact H3|]. split; [exact H4|].
  exact (second_run_doubles_call pre rest d "hall" H1 H2 H3 H4).
Defined.

(** ** Lines of a file *)

(** X14. Reading in text mode changes nothing but the line ends: the lines
    read, put together, are the text of the file with every carriage
    return followed by a line feed, and every other carriage return,
    turned into a line feed, which is the text itself exactly when it has
    no carriage return. The lines read have no carriage return and end
    with their one line feed, but for the last, which may be a line that
    is not empty and has none. *)
Theorem readlines_keeps_text (text : string) :
  writelines (readlines text) = universal_newlines text
  ∧ (universal_newlines text = text ↔ occurrences CR text = 0%nat)
  ∧ Forall (λ l, occurrences CR l = 0%nat) (readlines text)
  ∧ ∃ ls tl, readlines text = ls ++ tl
             ∧ Forall complete_line ls ∧ last_lines tl.
Proof.
  split; [apply writelines_readlines|].
  split; [apply universal_newlines_fixed|].
  split; [apply readlines_no_cr | apply readlines_wf].
Qed.

(** X15. Lines without carriage return that end with their one line feed,
    with at most one line without line feed at the end, written in text
    mode with the line separator LF or CRLF, are read back in text mode as
    they were written. *)
Theorem written_lines_read_back (sep : string) (ls tl : list string) :
  sep = lf ∨ sep = crlf →
  Forall complete_line ls → last_lines tl →
  Forall (λ l, occurrences CR l = 0%nat) (ls ++ tl) →
  readlines (translate_newlines sep (writelines (ls ++ tl))) = ls ++ tl.
Proof.
  intros Hsep Hls Htl Hcr. unfold readlines.
  rewrite (universal_translate sep _ Hsep).
  - by apply cut_lines_writelines.
  - by apply occurrences_writelines.
Qed.

Lemma written_lines_read_back_witness :
  let ls := [ln "package main"; ln ""] in
  let tl := ["// end"] in
  (crlf = lf ∨ crlf = crlf)
  ∧ Forall complete_line ls ∧ last_lines tl
  ∧ Forall (λ l, occurrences CR l = 0%nat) (ls ++ tl)
  ∧ readlines (translate_newlines crlf (writelines (ls ++ tl))) = ls ++ tl.
Proof.
  intros ls tl.
  assert (H0 : crlf = lf ∨ crlf = crlf) by (by right).
  assert (H1 : Forall complete_line ls).
  { repeat constructor.
    - by exists "package main".
    - by exists EmptyString. }
  assert (H2 : last_lines tl).
  { right. exists "// end". by repeat split. }
  assert (H3 : Forall (λ l, occurrences CR l = 0%nat) (ls ++ tl))
    by (repeat constructor).
  split; [exact H0|]. split; [exact H1|]. split; [exact H2|]. split; [exact H3|].
  exact (written_lines_read_back crlf ls tl H0 H1 H2 H3).
Defined.

(** X16. When no line before the last matches the pattern, the last line
    is a declaration that closes on its own line, and the file does not
    end with a newline, the call is written right after the last character
    of the declaration: the text handed to the file is the text read
    followed by the call, and read as lines the declaration and the call
    are one line. *)
Theorem call_joins_unterminated_line (filename bytes text bytes' : string)
    (pre : list string) (d v : string) (w : world) :
  files w !! filename = Some bytes →
  refuses w filename "r" = None → refuses w filename "w" = None →
  decode (text_layer w) bytes = Some text →
  readlines text = pre ++ [d] →
  no_newline d = true →
  no_match pre →
  match_decl d = Some v →
  snd (for_chars v d (ScanState 0 false [])) = true →
  write_lines (text_layer w) (pre ++ [d; connect_line v]) EmptyString
  = (bytes', true) →
  ∃ w', fix_eventbus_connections filename w = Some (Returned, w')
        ∧ files w' !! filename = Some bytes'
        ∧ fix_lines (readlines text) = Some (pre ++ [d; connect_line v])
        ∧ writelines (pre ++ [d; connect_line v])
          = universal_newlines text +:+ connect_line v
        ∧ readlines (universal_newlines text +:+ connect_line v)
          = pre ++ [d +:+ connect_line v].
Proof.
  intros Hf Hr Hw Hdec Hread Hd Hpre Hm Hb Hwr.
  assert (Hfix : fix_lines (readlines text)
                 = Some (pre ++ [d; connect_line v])).
  { by rewrite Hread, (fix_lines_prefix _ _ Hpre),
      (fix_lines_one_line _ _ _ Hm Hb), fix_lines_nil. }
  assert (Htext : universal_newlines text = writelines pre +:+ d).
  { rewrite <- (writelines_readlines text).
    rewrite Hread, writelines_app. unfold writelines at 2. simpl.
    by rewrite append_nil_r. }
  assert (Hnew : writelines (pre ++ [d; connect_line v])
                 = universal_newlines text +:+ connect_line v).
  { rewrite writelines_app, Htext, append_assoc'. unfold writelines at 2.
    simpl. by rewrite append_nil_r. }
  rewrite (fix_eventbus_connections_returns _ _ _ _ _ _ Hf Hr Hdec Hfix Hw Hwr).
  eexists. split; [reflexivity|]. split.
  { cbn [write_file files]. apply lookup_insert_eq. }
  split; [exact Hfix|]. split; [exact Hnew|].
  assert (Hjoin : complete_line (d +:+ connect_line v)).
  { exists (d +:+ String TAB (v +:+ ".ConnectToEventBus(eventBus)")). split.
    - rewrite no_newline_app, Hd, no_newline_cons, no_newline_app.
      by rewrite (word_no_newline v (match_decl_word _ _ Hm)).
    - unfold connect_line.
      by rewrite append_assoc', (append_cons TAB), append_assoc'. }
  assert (Hcr : occurrences CR (universal_newlines text +:+ connect_line v)
                = 0%nat).
  { rewrite occurrences_app, universal_newlines_no_cr. unfold connect_line.
    cbn [occurrences]. rewrite !occurrences_app.
    by rewrite (word_no_cr v (match_decl_word _ _ Hm)). }
  rewrite (readlines_no_cr_text _ Hcr).
  replace (universal_newlines text +:+ connect_line v)
    with (writelines ((pre ++ [d +:+ connect_line v]) ++ [])).
  - rewrite <- (app_nil_r (pre ++ [d +:+ connect_line v])) at 2.
    apply (cut_lines_writelines (pre ++ [d +:+ connect_line v]) []);
      [|by left].
    apply Forall_app. split; [by apply (readlines_init_complete text pre d)|].
    by constructor.
  - rewrite app_nil_r, writelines_app, Htext, append_assoc'.
    unfold writelines at 2. simpl. by rewrite append_nil_r.
Qed.

Lemma call_joins_unterminated_line_witness :
  let d := "r := NewBasicRoom(Config{})" in
  let out := [ln "package main"] ++ [d; connect_line "r"] in
  files unterminated_world !! "last.go" = Some unterminated_text
  ∧ readlines unterminated_text = [ln "package main"] ++ [d]
  ∧ no_newline d = true
  ∧ no_match [ln "package main"]
  ∧ match_decl d = Some "r"
  ∧ snd (for_chars "r" d (ScanState 0 false [])) = true
  ∧ write_lines latin1_posix out EmptyString = (writelines out, true)
  ∧ ∃ w', fix_eventbus_connections "last.go" unterminated_world
          = Some (Returned, w')
          ∧ files w' !! "last.go" = Some (writelines out)
          ∧ fix_lines (readlines unterminated_text) = Some out
          ∧ writelines out
            = universal_newlines unterminated_text +:+ connect_line "r"
          ∧ readlines (universal_newlines unterminated_text
                         +:+ connect_line "r")
            = [ln "package main"] ++ [d +:+ connect_line "r"].
Proof.
  intros d out.
  assert (H1 : files unterminated_world !! "last.go" = Some unterminated_text)
    by apply lookup_singleton_eq.
  assert (H2 : readlines unterminated_text = [ln "package main"] ++ [d])
    by (vm_compute; reflexivity).
  assert (H3 : no_newline d = true) by (vm_compute; reflexivity).
  assert (H4 : no_match [ln "package main"]) by (repeat constructor).
  assert (H5 : match_decl d = Some "r") by (vm_compute; reflexivity).
  assert (H6 : snd (for_chars "r" d (ScanState 0 false [])) = true)
    by (vm_compute; reflexivity).
  assert (H7 : write_lines latin1_posix out EmptyString = (writelines out, true))
    by (vm_compute; reflexivity).
  repeat (split; [assumption|]).
  exact (call_joins_unterminated_line "last.go" unterminated_text
           unterminated_text (writelines out) [ln "package main"] d "r"
           unterminated_world H1 eq_refl eq_refl eq_refl H2 H3 H4 H5 H6 H7).
Defined.

(** ** The outer loop *)

(** X17. The outer loop keeps what it has written and goes on as a run of
    its own on the lines that are left: resumed at line [i] with [out]
    written, it ends with [out] followed by the output of the rewriter on
    the lines from [i] on; what was read before has no influence. *)
Theorem outer_loop_resumes (lines : list string) (i : nat) (out : list string) :
  run_outer lines i out = (λ res, out ++ res) <$> fix_lines (drop i lines).
Proof.
  destruct (rewrites_total (drop i lines)) as [res Hres].
  rewrite (fix_lines_rewrites _ _ Hres). unfold run_outer.
  apply outer_while_fuel; [done | lia].
Qed.

(** ** Declarations that close on their line *)

(** X18. When every matching line of the file closes its braces on the
    line itself, the rewriter does what it is meant to do: the output is
    the input with, after each matching line, the call on its identifier. *)
Theorem one_line_declarations_all_connected (lines : list string) :
  Forall closes_on_line lines →
  fix_lines lines = Some (flat_map with_call lines).
Proof.
  induction 1 as [|line ls Hc _ IH]; [reflexivity|].
  simpl. unfold with_call at 1.
  destruct (match_decl line) as [v|] eqn:Hm.
  - by rewrite (fix_lines_one_line _ _ _ Hm (Hc v Hm)), IH.
  - by rewrite (fix_lines_copy _ _ Hm), IH.
Qed.

Lemma one_line_declarations_all_connected_witness :
  let a := ln "a := NewBasicRoom(Config{ID: 1})" in
  let b := ln "b := spatial.NewBasicRoomOrchestrator(Config{ID: 2})" in
  Forall closes_on_line [a; ln "use(a)"; b]
  ∧ fix_lines [a; ln "use(a)"; b]
    = Some [a; connect_line "a"; ln "use(a)"; b; connect_line "b"].
Proof.
  intros a b.
  assert (H : Forall closes_on_line [a; ln "use(a)"; b]).
  { repeat constructor; intros v Hv; vm_compute in Hv;
      try discriminate Hv; injection Hv as <-; vm_compute; reflexivity. }
  split; [exact H|].
  exact (one_line_declarations_all_connected [a; ln "use(a)"; b] H).
Defined.

(** ** Where the scan stops, said on the text *)

Lemma balance_app (p q : string) : balance (p +:+ q) = balance p + balance q.
Proof. unfold balance. rewrite !occurrences_app. lia. Qed.

Lemma has_opening_app (p q : string) :
  has_opening (p +:+ q) = has_opening p || has_opening q.
Proof.
  unfold has_opening. rewrite occurrences_app.
  destruct (occurrences LBRACE p), (occurrences LBRACE q); reflexivity.
Qed.

(** The state in which the scan is after lines it has passed. *)
Lemma scan_through_state v ls bc fo out st :
  scan_through v ls (ScanState bc fo out) = Some st →
  st = ScanState (bc + balance (writelines ls))
         (fo || has_opening (writelines ls)) out.
Proof.
  revert bc fo. induction ls as [|l ls IH]; intros bc fo H; simpl in H.
  - injection H as <-. unfold balance, has_opening. simpl.
    rewrite orb_false_r. f_equal. lia.
  - destruct (closed (for_chars v l (ScanState bc fo out)).1) eqn:Hc; [done|].
    assert (Hb : snd (for_chars v l (ScanState bc fo out)) = false).
    { destruct (snd (for_chars v l (ScanState bc fo out))) eqn:Hb; [|done].
      apply for_chars_broke in Hb as [Hb _]. congruence. }
    rewrite (for_chars_through _ _ _ Hb) in H. simpl in H.
    apply IH in H. subst st.
    change (writelines (l :: ls)) with (l +:+ writelines ls).
    rewrite balance_app, has_opening_app, orb_assoc. unfold balance at 2.
    unfold has_opening at 2. f_equal. lia.
Qed.

(** The character loop breaks on the first closing brace that brings the
    count to zero after an opening brace. *)
Lemma for_chars_first_rebalance v c1 c2 bc fo out :
  (∀ p q, c1 = p +:+ q → fo || has_opening p = true → bc + balance p ≠ 0) →
  fo || has_opening c1 = true →
  bc + balance c1 = 1 →
  snd (for_chars v (c1 +:+ String RBRACE c2) (ScanState bc fo out)) = true.
Proof.
  intros Hnz Hfo Hbal.
  pose proof (for_chars_never_zero v c1 bc fo out Hnz) as Hb.
  rewrite (for_chars_app _ _ _ _ Hb), (for_chars_through _ _ _ Hb).
  cbn [bracket_count found_opening output_lines].
  fold (balance c1). fold (has_opening c1).
  replace (bc + Z.of_nat (occurrences LBRACE c1)
           - Z.of_nat (occurrences RBRACE c1)) with 1
    by (unfold balance in Hbal; lia).
  simpl. unfold closed. simpl. by rewrite Hfo.
Qed.

(** X19. Said on the text: take a matching declaration line, lines [body]
    after it, and a next line [c1 } c2]. If up to [c1] the braces are
    never balanced once one was opened, and the closing brace after [c1]
    balances them, then this line is not written: the output has the
    declaration line, [body], and the call in the place of the line. *)
Theorem line_of_balancing_brace_replaced (d v c1 c2 : string)
    (body rest : list string) :
  match_decl d = Some v →
  (∀ p q, writelines (d :: body) +:+ c1 = p +:+ q →
          has_opening p = true → balance p ≠ 0) →
  has_opening (writelines (d :: body) +:+ c1) = true →
  balance (writelines (d :: body) +:+ c1) = 1 →
  fix_lines (d :: body ++ (c1 +:+ String RBRACE c2) :: rest)
  = (λ res, d :: body ++ connect_line v :: res) <$> fix_lines rest.
Proof.
  intros Hm Hnz Hop Hbal.
  destruct (scan_through_never_zero v (d :: body) 0 false []) as [st Hs].
  { intros p q Hpq Hp. rewrite Z.add_0_l.
    apply (Hnz p (q +:+ c1)); [|done]. by rewrite Hpq, append_assoc'. }
  pose proof (scan_through_state _ _ _ _ _ _ Hs) as Hst.
  apply (fix_lines_closing d body _ rest v st Hm Hs).
  rewrite Hst. rewrite balance_app in Hbal. rewrite has_opening_app in Hop.
  apply for_chars_first_rebalance.
  - intros p q -> Hp. rewrite Z.add_0_l, <- balance_app.
    apply (Hnz (writelines (d :: body) +:+ p) q).
    + by rewrite append_assoc'.
    + by rewrite has_opening_app.
  - exact Hop.
  - lia.
Qed.

Lemma line_of_balancing_brace_replaced_witness :
  let d := ln "r := NewBasicRoom(" in
  let body := [ln (tab "a,")] in
  let c1 := tab "Config{" in
  match_decl d = Some "r"
  ∧ has_opening (writelines (d :: body) +:+ c1) = true
  ∧ balance (writelines (d :: body) +:+ c1) = 1
  ∧ fix_lines (d :: body ++ (c1 +:+ String RBRACE (ln ")")) :: [ln "use(r)"])
    = Some (d :: body ++ [connect_line "r"; ln "use(r)"]).
Proof.
  intros d body c1.
  assert (H1 : match_decl d = Some "r") by (vm_compute; reflexivity).
  assert (H3 : has_opening (writelines (d :: body) +:+ c1) = true)
    by (vm_compute; reflexivity).
  assert (H4 : balance (writelines (d :: body) +:+ c1) = 1)
    by (vm_compute; reflexivity).
  assert (H2 : ∀ p q, writelines (d :: body) +:+ c1 = p +:+ q →
                      has_opening p = true → balance p ≠ 0).
  { intros p q E Hp. unfold balance.
    assert (Hr : occurrences RBRACE p = 0%nat).
    { assert (Hall : occurrences RBRACE (writelines (d :: body) +:+ c1) = 0%nat)
        by (vm_compute; reflexivity).
      rewrite E, occurrences_app in Hall. lia. }
    unfold has_opening in Hp. apply Nat.ltb_lt in Hp. lia. }
  split; [exact H1|]. split; [exact H3|]. split; [exact H4|].
  exact (line_of_balancing_brace_replaced d "r" c1 (ln ")") body [ln "use(r)"]
           H1 H2 H3 H4).
Defined.
